(** * MD-Blog: the content compiler of [build.js], embedded in Rocq

    The development follows [src/build.js]:
    - [JsString]: the string builtins the script calls ([toLowerCase],
      [trim], [substring], [endsWith], [replace] with a string pattern);
    - [Regex]: a backtracking matcher with the priorities of ECMAScript
      regular expressions, and [match], [replace] and [split] on top of it;
    - [Build]: [getReadingTime], the two renderer interceptors of
      [processMarkdown], and [build]: the compilation of the posts, the
      search index, the related posts and the pages, with the files
      that are written and the errors that are thrown. The external
      libraries ([gray-matter], [marked], [Date]) and the texts of the
      page templates are parameters of a section.

    Strings are lists of characters; a character is a code unit in the
    range U+0000..U+00FF, represented by [ascii]. *)

From Stdlib Require Import Ascii String DecimalString.
From Stdlib Require Import List Bool Arith ZArith Lia Permutation Sorted.
Import ListNotations.

Set Implicit Arguments.

(** ** Characters and strings *)

Abbreviation str := (list ascii).

(** [L "abc"] is the string literal [abc]. *)
Definition L (s : string) : str := list_ascii_of_string s.

Definition dquote : ascii := ascii_of_nat 34.

(** [Q "a='b'"] is the literal with every apostrophe read as a double
    quote: the script's templates hold double quotes and no apostrophe. *)
Definition Q (s : string) : str :=
  map (fun a => if Ascii.eqb a "'"%char then dquote else a) (L s).

Definition code (a : ascii) : nat := nat_of_ascii a.

Definition in_range (lo hi : nat) (a : ascii) : bool :=
  (lo <=? code a) && (code a <=? hi).

Definition is_upper (a : ascii) : bool := in_range 65 90 a.
Definition is_lower (a : ascii) : bool := in_range 97 122 a.
Definition is_digit (a : ascii) : bool := in_range 48 57 a.

(** [\w]: [A-Za-z0-9_]. *)
Definition is_word (a : ascii) : bool :=
  is_upper a || is_lower a || is_digit a || (code a =? 95).

(** Line terminators below U+0100: LF and CR. *)
Definition is_line_terminator (a : ascii) : bool :=
  (code a =? 10) || (code a =? 13).

(** [\s], and the characters [trim] removes: TAB, LF, VT, FF, CR, SP and
    NBSP are the white space and line terminators below U+0100. *)
Definition is_space (a : ascii) : bool :=
  in_range 9 13 a || (code a =? 32) || (code a =? 160).

Fixpoint take_while (p : ascii -> bool) (s : str) : str :=
  match s with
  | [] => []
  | a :: t => if p a then a :: take_while p t else []
  end.

Fixpoint drop_while (p : ascii -> bool) (s : str) : str :=
  match s with
  | [] => []
  | a :: t => if p a then drop_while p t else s
  end.

Fixpoint str_eqb (s t : str) : bool :=
  match s, t with
  | [], [] => true
  | a :: s', b :: t' => Ascii.eqb a b && str_eqb s' t'
  | _, _ => false
  end.

Fixpoint starts_with (p s : str) : bool :=
  match p, s with
  | [], _ => true
  | a :: p', b :: s' => Ascii.eqb a b && starts_with p' s'
  | _ :: _, [] => false
  end.

(** [s.includes(p)] on strings. *)
Fixpoint contains (p s : str) : bool :=
  starts_with p s ||
  match s with
  | [] => false
  | _ :: t => contains p t
  end.

Module JsString.

(** [String.prototype.toLowerCase] on one code unit: [A-Z] and the
    upper-case letters of Latin-1 (U+00C0..U+00DE but U+00D7) move up
    by 32. *)
Definition lower_char (a : ascii) : ascii :=
  if is_upper a || (in_range 192 222 a && negb (code a =? 215))
  then ascii_of_nat (code a + 32)
  else a.

Definition toLowerCase (s : str) : str := map lower_char s.

Definition trimStart (s : str) : str := drop_while is_space s.

Fixpoint trimEnd (s : str) : str :=
  match s with
  | [] => []
  | a :: t =>
      match trimEnd t with
      | [] => if is_space a then [] else [a]
      | t' => a :: t'
      end
  end.

Definition trim (s : str) : str := trimEnd (trimStart s).

(** [s.substring(0, n)]. *)
Definition substring0 (n : nat) (s : str) : str := firstn n s.

Definition endsWith (suffix s : str) : bool :=
  starts_with (rev suffix) (rev s).

(** [s.replace(pat, repl)] with a string pattern: the first occurrence
    of [pat] is replaced, the rest of [s] is kept. *)
Fixpoint replace_str (pat repl s : str) : str :=
  if starts_with pat s then repl ++ skipn (length pat) s
  else match s with
       | [] => []
       | a :: t => a :: replace_str pat repl t
       end.

(** [a || b] on strings: the empty string and [undefined] are falsy. *)
Definition or_str (a : option str) (b : str) : str :=
  match a with
  | Some (c :: s) => c :: s
  | _ => b
  end.

(** [a || b] on numbers: [0] and [undefined] are falsy. *)
Definition or_num (a : option Z) (b : Z) : Z :=
  match a with
  | Some 0%Z | None => b
  | Some n => n
  end.

(** A number in a template literal; the script prints integers only. *)
Definition of_num (n : Z) : str := L (NilZero.string_of_int (Z.to_int n)).

End JsString.

(** ** Regular expressions *)

Module Regex.

Inductive re : Type :=
| Eps                               (* the empty pattern *)
| Chr (p : ascii -> bool)           (* one character of a class *)
| Cat (r1 r2 : re)
| Alt (r1 r2 : re)                  (* r1|r2, r1 tried first *)
| Star (greedy : bool) (r : re)     (* r* and r*? *)
| Group (j : nat) (r : re)          (* capture group number j *)
| Bol.                              (* ^ without the m flag *)

Definition caps := list (nat * str).

Fixpoint cap (j : nat) (c : caps) : option str :=
  match c with
  | [] => None
  | (j', s) :: c' => if j =? j' then Some s else cap j c'
  end.

(** A continuation receives the index reached, the rest of the input
    and the captures so far. *)
Definition cont (R : Type) := nat -> str -> caps -> option R.

Section Loop.
Variable R : Type.
Variable step : nat -> str -> caps -> cont R -> option R.
Variable greedy : bool.
Variable k : cont R.

(** The repeat matcher: an iteration that consumes nothing is
    rejected, so [n] iterations exhaust an input of [n] characters. *)
Fixpoint star_loop (n : nat) (i : nat) (s : str) (c : caps) : option R :=
  if greedy then
    match
      match n with
      | 0 => None
      | S n' => step i s c (fun i' s' c' =>
                  if i <? i' then star_loop n' i' s' c' else None)
      end
    with
    | Some x => Some x
    | None => k i s c
    end
  else
    match k i s c with
    | Some x => Some x
    | None =>
        match n with
        | 0 => None
        | S n' => step i s c (fun i' s' c' =>
                    if i <? i' then star_loop n' i' s' c' else None)
        end
    end.
End Loop.

(** [m r i s c k]: match [r] at index [i], where the input from [i] on
    is [s]; alternatives are tried in priority order and the first one
    whose continuation succeeds wins. *)
Fixpoint m (R : Type) (r : re) {struct r} : nat -> str -> caps -> cont R -> option R :=
  match r with
  | Eps => fun i s c k => k i s c
  | Chr p => fun i s c k =>
      match s with
      | a :: t => if p a then k (S i) t c else None
      | [] => None
      end
  | Cat r1 r2 => fun i s c k =>
      m r1 i s c (fun i' s' c' => m r2 i' s' c' k)
  | Alt r1 r2 => fun i s c k =>
      match m r1 i s c k with
      | Some x => Some x
      | None => m r2 i s c k
      end
  | Star g r1 => fun i s c k =>
      star_loop (m (R:=R) r1) g k (length s) i s c
  | Group j r1 => fun i s c k =>
      m r1 i s c (fun i' s' c' => k i' s' ((j, firstn (i' - i) s) :: c'))
  | Bol => fun i s c k => if i =? 0 then k i s c else None
  end.

Definition accept : cont (nat * caps) := fun i _ c => Some (i, c).

(** One attempt at index [i]: the end index and the captures. *)
Definition match_at (r : re) (i : nat) (s : str) : option (nat * caps) :=
  m r i s [] accept.

(** [RegExpBuiltinExec] without the g and y flags: the leftmost index
    at which an attempt succeeds. The result is (start, end, captures). *)
Fixpoint exec_from (r : re) (i : nat) (s : str) : option (nat * nat * caps) :=
  match match_at r i s with
  | Some (e, c) => Some (i, e, c)
  | None =>
      match s with
      | [] => None
      | _ :: t => exec_from r (S i) t
      end
  end.

Definition exec (r : re) (s : str) : option (nat * nat * caps) :=
  exec_from r 0 s.

(** [s.replace(r, repl)], [r] without the g flag and [repl] a string
    without [$]: the first match is replaced. *)
Definition replace (r : re) (repl s : str) : str :=
  match exec r s with
  | None => s
  | Some (b, e, _) => firstn b s ++ repl ++ skipn e s
  end.

(** [s.replace(r, repl)] with the g flag, as one pass over the input:
    [skip] counts the characters of the last match still to be dropped.
    After an empty match the next character is copied and the search
    resumes behind it ([AdvanceStringIndex]). *)
Fixpoint replace_scan (r : re) (repl : str) (q : nat) (s : str) (skip : nat) : str :=
  match s with
  | [] =>
      match skip with
      | 0 => match match_at r q [] with Some _ => repl | None => [] end
      | S _ => []
      end
  | a :: t =>
      match skip with
      | S n => replace_scan r repl (S q) t n
      | 0 =>
          match match_at r q s with
          | None => a :: replace_scan r repl (S q) t 0
          | Some (e, _) =>
              if e =? q then repl ++ a :: replace_scan r repl (S q) t 0
              else repl ++ replace_scan r repl (S q) t (e - q - 1)
          end
      end
  end.

Definition replace_all (r : re) (repl s : str) : str :=
  replace_scan r repl 0 s 0.

(** [s.split(r)] for [r] without capture groups ([RegExp.prototype
    [@@split]]): [acc] holds, reversed, the piece that began at the
    end [p] of the last separator. A match at [q] that ends at [p]
    (an empty match with [acc] empty) is passed over. *)
Fixpoint split_scan (r : re) (q : nat) (s : str) (acc : str) (skip : nat) : list str :=
  match s with
  | [] => [rev acc]
  | a :: t =>
      match skip with
      | S n => split_scan r (S q) t acc n
      | 0 =>
          match match_at r q s with
          | None => split_scan r (S q) t (a :: acc) 0
          | Some (e, _) =>
              if e =? q then
                match acc with
                | [] => split_scan r (S q) t [a] 0
                | _ :: _ => rev acc :: split_scan r (S q) t [a] 0
                end
              else rev acc :: split_scan r (S q) t [] (e - q - 1)
          end
      end
  end.

Definition split (r : re) (s : str) : list str :=
  match s with
  | [] => match match_at r 0 [] with Some _ => [] | None => [[]] end
  | _ :: _ => split_scan r 0 s [] 0
  end.

(** Notations of the patterns. *)
Definition chr (a : ascii) : re := Chr (Ascii.eqb a).
Definition seq (rs : list re) : re := fold_right Cat Eps rs.
Definition lit (s : string) : re := seq (map chr (L s)).
Definition alts (r : re) (rs : list re) : re := fold_left Alt rs r.
Definition plus (r : re) : re := Cat r (Star true r).
Definition opt (r : re) : re := Alt r Eps.
Definition any : re := Chr (fun _ => true).                    (* [\s\S] *)
Definition dot : re := Chr (fun a => negb (is_line_terminator a)).

End Regex.

(** ** Arrays *)

Module JsArray.

(** [tags.includes(tag)] on an array of strings. *)
Definition includes (l : list str) (x : str) : bool :=
  existsb (str_eqb x) l.

Section Sort.
Variable A : Type.
(** The comparator: a positive [cmp a b] puts [a] behind [b]. *)
Variable cmp : A -> A -> Z.

Fixpoint insert (x : A) (l : list A) : list A :=
  match l with
  | [] => [x]
  | y :: l' => if (0 <? cmp x y)%Z then y :: insert x l' else x :: l
  end.

(** [Array.prototype.sort] is stable: an element moves behind those
    only that the comparator puts strictly before it. This fixes the
    result for a consistent comparator, which is what the script is
    modelled with; for another one the language leaves the order to
    the implementation. *)
Fixpoint sort (l : list A) : list A :=
  match l with
  | [] => []
  | x :: l' => insert x (sort l')
  end.
End Sort.

End JsArray.

(** ** The compiler of [build.js] *)

Module Build.
Import JsString.

(** *** Patterns of the script *)

(** Line 24: [/\s+/]. *)
Definition ws_plus : Regex.re := Regex.plus (Regex.Chr is_space).

(** Line 48: [/[^\w]+/g]. *)
Definition nonword_plus : Regex.re :=
  Regex.plus (Regex.Chr (fun a => negb (is_word a))).

Definition alert_tokens : list string :=
  ["NOTE"; "TIP"; "IMPORTANT"; "WARNING"; "CAUTION"]%string.

(** Line 60: [/^<p>\[!(NOTE|TIP|IMPORTANT|WARNING|CAUTION)\]\s*(.*?)<\/p>(R)/]
    where the third group [R] is [[\s\S]] repeated, greedy. *)
Definition alert_re : Regex.re :=
  Regex.seq
    [ Regex.Bol; Regex.lit "<p>[!";
      Regex.Group 1
        (Regex.alts (Regex.lit "NOTE")
           [Regex.lit "TIP"; Regex.lit "IMPORTANT"; Regex.lit "WARNING";
            Regex.lit "CAUTION"]);
      Regex.lit "]"; Regex.Star true (Regex.Chr is_space);
      Regex.Group 2 (Regex.Star false Regex.dot);
      Regex.lit "</p>";
      Regex.Group 3 (Regex.Star true Regex.any) ].

(** Line 66: [/^<p>\[!.*?\]\s*<\/p>/]. *)
Definition first_line_re : Regex.re :=
  Regex.seq
    [ Regex.Bol; Regex.lit "<p>[!"; Regex.Star false Regex.dot;
      Regex.lit "]"; Regex.Star true (Regex.Chr is_space);
      Regex.lit "</p>" ].

(** Line 147: [/<[^>]*>?/gm]; the m flag changes [^] and [$] only. *)
Definition tag_re : Regex.re :=
  Regex.seq
    [ Regex.chr "<";
      Regex.Star true (Regex.Chr (fun a => negb (Ascii.eqb a ">")));
      Regex.opt (Regex.chr ">") ].

(** *** [getReadingTime] *)

(** [Math.ceil(n / d)] on non-negative integers. *)
Definition ceil_div (n d : nat) : nat := (n + (d - 1)) / d.

Definition getReadingTime (content : str) : nat :=
  let wordsPerMinute := 200 in
  let words := length (Regex.split ws_plus (trim content)) in
  ceil_div words wordsPerMinute.

(** *** The heading renderer *)

Record toc_entry : Type :=
  { anchor : str; text : str; level : Z }.

(** The two calling conventions of [renderer.heading]: a token object
    with optional fields, or the positional [(text, level, raw)]. *)
Inductive heading_args : Type :=
| HeadingToken (text : option str) (depth level : option Z) (raw : option str)
| HeadingPositional (text : str) (level : Z) (raw : option str).

Definition headerText (h : heading_args) : str :=
  match h with
  | HeadingToken t _ _ _ => or_str t []
  | HeadingPositional t _ _ => t
  end.

Definition headerLevel (h : heading_args) : Z :=
  match h with
  | HeadingToken _ d l _ => or_num d (or_num l 1)
  | HeadingPositional _ l _ => l
  end.

Definition headerRaw (h : heading_args) : option str :=
  match h with
  | HeadingToken _ _ _ r => Some (or_str r (headerText h))
  | HeadingPositional _ _ r => r
  end.

(** [s.toLowerCase().replace(/[^\w]+/g, '-')]. *)
Definition slugify (s : str) : str :=
  Regex.replace_all nonword_plus (L "-") (toLowerCase s).

Definition heading_anchor (h : heading_args) : str :=
  slugify (or_str (headerRaw h) (or_str (Some (headerText h)) [])).

Definition heading_html (h : heading_args) : str :=
  L "<h" ++ of_num (headerLevel h) ++ Q " id='" ++ heading_anchor h
    ++ Q "'>" ++ headerText h ++ L "</h" ++ of_num (headerLevel h)
    ++ L ">".

(** [renderer.heading]: the closure's [toc] is threaded as state. *)
Definition heading (h : heading_args) (toc : list toc_entry)
  : str * list toc_entry :=
  let anchor := heading_anchor h in
  let toc' :=
    if (headerLevel h <=? 3)%Z
    then toc ++ [{| anchor := anchor; text := headerText h;
                    level := headerLevel h |}]
    else toc in
  (heading_html h, toc').

(** *** The blockquote renderer *)

Inductive blockquote_args : Type :=
| BlockquoteString (s : str)
| BlockquoteToken (text : option str).

Definition contentStr (b : blockquote_args) : str :=
  match b with
  | BlockquoteString s => s
  | BlockquoteToken t => or_str t []
  end.

Fixpoint lookup (key : str) (table : list (str * str)) : option str :=
  match table with
  | [] => None
  | (k, v) :: table' => if str_eqb key k then Some v else lookup key table'
  end.

Definition icons : list (str * str) :=
  [ (L "note", Q "<svg class='w-6 h-6' fill='none' viewBox='0 0 24 24' stroke='currentColor'><path stroke-linecap='round' stroke-linejoin='round' stroke-width='2' d='M13 16h-1v-4h-1m1-4h.01M21 12a9 9 0 11-18 0 9 9 0 0118 0z' /></svg>");
    (L "tip", Q "<svg class='w-6 h-6' fill='none' viewBox='0 0 24 24' stroke='currentColor'><path stroke-linecap='round' stroke-linejoin='round' stroke-width='2' d='M9.663 17h4.673M12 3v1m6.364 1.636l-.707.707M21 12h-1M4 12H3m3.343-5.657l-.707-.707m2.828 9.9a5 5 0 117.072 0l-.548.547A3.374 3.374 0 0014 18.469V19a2 2 0 11-4 0v-.531c0-.895-.356-1.754-.988-2.386l-.548-.547z' /></svg>");
    (L "important", Q "<svg class='w-6 h-6' fill='none' viewBox='0 0 24 24' stroke='currentColor'><path stroke-linecap='round' stroke-linejoin='round' stroke-width='2' d='M12 8v4m0 4h.01M21 12a9 9 0 11-18 0 9 9 0 0118 0z' /></svg>");
    (L "warning", Q "<svg class='w-6 h-6' fill='none' viewBox='0 0 24 24' stroke='currentColor'><path stroke-linecap='round' stroke-linejoin='round' stroke-width='2' d='M12 9v2m0 4h.01m-6.938 4h13.856c1.54 0 2.502-1.667 1.732-3L13.732 4c-.77-1.333-2.694-1.333-3.464 0L3.34 16c-.77 1.333.192 3 1.732 3z' /></svg>");
    (L "caution", Q "<svg class='w-6 h-6' fill='none' viewBox='0 0 24 24' stroke='currentColor'><path stroke-linecap='round' stroke-linejoin='round' stroke-width='2' d='M12 8v4m0 4h.01M21 12a9 9 0 11-18 0 9 9 0 0118 0z' /></svg>") ].

Definition colors : list (str * str) :=
  [ (L "note", L "border-blue-500 bg-blue-500/10 text-blue-200");
    (L "tip", L "border-green-500 bg-green-500/10 text-green-200");
    (L "important", L "border-purple-500 bg-purple-500/10 text-purple-200");
    (L "warning", L "border-yellow-500 bg-yellow-500/10 text-yellow-200");
    (L "caution", L "border-red-500 bg-red-500/10 text-red-200") ].

(** [table[type] || table.note]. *)
Definition lookup_or_note (table : list (str * str)) (type : str) : str :=
  or_str (lookup type table) (or_str (lookup (L "note") table) []).

(** What the renderer interpolates into the callout template. *)
Record callout : Type :=
  { type : str; title : str; restOfContent : str }.

(** [alertMatch[1]]; the group takes part in every match. *)
Definition group1 (c : Regex.caps) : str :=
  match Regex.cap 1 c with Some s => s | None => [] end.

Definition alert (content : str) : option callout :=
  match Regex.exec alert_re content with
  | None => None
  | Some (_, _, c) =>
      Some {| type := toLowerCase (group1 c);
              title := group1 c;
              (* Remove the first line *)
              restOfContent := Regex.replace first_line_re [] content |}
  end.

(** The body of the callout that a content gives. *)
Definition restOfContent_of (content : str) : option str :=
  option_map restOfContent (alert content).

Definition nl : str := [ascii_of_nat 10].
Definition indent (n : nat) : str := repeat " "%char n.

Definition callout_html (a : callout) : str :=
  nl ++ indent 16
    ++ Q "<div class='my-8 p-4 border-l-4 rounded-r-lg flex gap-4 "
    ++ lookup_or_note colors (type a) ++ Q "'>"
    ++ nl ++ indent 20 ++ Q "<div class='shrink-0 mt-1'>"
    ++ lookup_or_note icons (type a) ++ L "</div>"
    ++ nl ++ indent 20
    ++ Q "<div class='prose prose-invert prose-sm max-w-none'>"
    ++ nl ++ indent 24
    ++ Q "<strong class='block mb-1 capitalize text-white font-bold'>"
    ++ title a ++ L "</strong>"
    ++ nl ++ indent 24 ++ restOfContent a
    ++ nl ++ indent 20 ++ L "</div>"
    ++ nl ++ indent 16 ++ L "</div>"
    ++ nl ++ indent 12.

Definition plain_blockquote (content : str) : str :=
  L "<blockquote>" ++ content ++ L "</blockquote>".

(** [renderer.blockquote]. *)
Definition blockquote (b : blockquote_args) : str :=
  match alert (contentStr b) with
  | Some a => callout_html a
  | None => plain_blockquote (contentStr b)
  end.

(** *** [processMarkdown] *)

(** How [marked] calls a renderer: with the token of its lexer, as its
    recent versions do, or with the parts of the token, rendered, as
    positional arguments, as its earlier versions do. The renderers of
    the script accept both. *)
Inductive convention : Type := Tokens | Positional.

(** A heading token: the number of its [#] signs (1 to 6), the source
    of the whole heading, the source of its text, and what the inline
    renderer of [marked] makes of that text, as HTML and as plain
    text. *)
Record heading_token : Type :=
  { tk_depth : positive; tk_raw : str; tk_text : str;
    tk_html : str; tk_plain : str }.

(** The tokens of a document: a heading; a blockquote, with the source
    of its content and its child tokens; any other token, which
    [marked] renders by a renderer of its own around its rendered child
    tokens. *)
#[local] Set Warnings "-register-all".
Inductive node : Type :=
| NodeHeading (h : heading_token)
| NodeBlockquote (text : str) (inner : list node)
| NodeOther (wrap : str -> str) (inner : list node).

(** The arguments that the parser of [marked] gives [renderer.heading]:
    the token, or the rendered text, the depth and the plain text. *)
Definition heading_call (conv : convention) (h : heading_token)
  : heading_args :=
  match conv with
  | Tokens =>
      HeadingToken (Some (tk_text h)) (Some (Z.pos (tk_depth h))) None
        (Some (tk_raw h))
  | Positional =>
      HeadingPositional (tk_html h) (Z.pos (tk_depth h)) (Some (tk_plain h))
  end.

Section Parser.
Variable conv : convention.

(** The parser of [marked] over one token; [toc] is the array of the
    closure. With positional arguments the child tokens of a blockquote
    are rendered and [renderer.blockquote] gets their HTML; with tokens
    it gets the token, reads its [text], and the child tokens are
    rendered by nobody. *)
Fixpoint render_node (n : node) (toc : list toc_entry) {struct n}
  : str * list toc_entry :=
  match n with
  | NodeHeading h => heading (heading_call conv h) toc
  | NodeBlockquote text inner =>
      match conv with
      | Tokens => (blockquote (BlockquoteToken (Some text)), toc)
      | Positional =>
          let (html, toc') :=
            (fix render_inner (ns : list node) (toc : list toc_entry) :=
               match ns with
               | [] => ([], toc)
               | n' :: ns' =>
                   let (html, toc1) := render_node n' toc in
                   let (html', toc2) := render_inner ns' toc1 in
                   (html ++ html', toc2)
               end) inner toc in
          (blockquote (BlockquoteString html), toc')
      end
  | NodeOther wrap inner =>
      let (html, toc') :=
        (fix render_inner (ns : list node) (toc : list toc_entry) :=
           match ns with
           | [] => ([], toc)
           | n' :: ns' =>
               let (html, toc1) := render_node n' toc in
               let (html', toc2) := render_inner ns' toc1 in
               (html ++ html', toc2)
           end) inner toc in
      (wrap html, toc')
  end.

Fixpoint render_nodes (ns : list node) (toc : list toc_entry)
  : str * list toc_entry :=
  match ns with
  | [] => ([], toc)
  | n :: ns' =>
      let (html, toc1) := render_node n toc in
      let (html', toc2) := render_nodes ns' toc1 in
      (html ++ html', toc2)
  end.

End Parser.

(** *** Posts *)

(** The value of [tags] in the front matter when it is truthy: an array
    of strings, a string (a YAML scalar), or a value that is neither (a
    number, [true], a mapping, a date). *)
Inductive tags_value : Type :=
| TagsArray (l : list str)
| TagsString (s : str)
| TagsOther.

(** [Array.isArray]. *)
Definition is_array (v : tags_value) : bool :=
  match v with
  | TagsArray _ => true
  | TagsString _ | TagsOther => false
  end.

(** The front matter of a document ([data] of [gray-matter]); [None]
    is an absent field, and for [md_tags] any falsy value but the empty
    string. *)
Record metadata : Type :=
  { md_title : option str; md_date : option str;
    md_description : option str; md_author : option str;
    md_heroImage : option str; md_tags : option tags_value }.

(** [data.tags || []] (line 134). *)
Definition or_tags (t : option tags_value) : tags_value :=
  match t with
  | Some (TagsArray l) => TagsArray l
  | Some (TagsString (c :: s)) => TagsString (c :: s)
  | Some TagsOther => TagsOther
  | Some (TagsString []) | None => TagsArray []
  end.

(** [date] is the time value of the [Date]; [None] is an invalid date. *)
Record Post : Type :=
  { post_title : option str; description : option str;
    author : option str; slug : str; readingTime : nat;
    toc : list toc_entry; htmlContent : str; date : option Z;
    tags : tags_value; heroImage : option str }.

(** [file.replace('.md', '')] (line 124). *)
Definition slug_of_file (file : str) : str := replace_str (L ".md") [] file.

(** [b.date - a.date]; the sort reads a [NaN] as [+0]. *)
Definition by_date_desc (a b : Post) : Z :=
  match date b, date a with
  | Some y, Some x => (y - x)%Z
  | _, _ => 0%Z
  end.

(** The date of a post is valid. *)
Definition has_date (p : Post) : bool :=
  match date p with
  | Some _ => true
  | None => false
  end.

(** *** The search index *)

Record SearchRecord : Type :=
  { sr_title : option str; sr_slug : str; sr_description : option str;
    sr_tags : tags_value; content : str }.

(** [p.htmlContent.replace(/<[^>]*>?/gm, ' ').substring(0, 300)]. *)
Definition snippet (html : str) : str :=
  substring0 300 (Regex.replace_all tag_re (L " ") html).

Definition searchIndex (posts : list Post) : list SearchRecord :=
  map (fun p => {| sr_title := post_title p; sr_slug := slug p;
                   sr_description := description p; sr_tags := tags p;
                   content := snippet (htmlContent p) |}) posts.

(** *** What the script throws *)

(** The [TypeError] of a call of something that is no function, with
    the text of the callee: [post.tags.map is not a function]. *)
Inductive type_error : Type := NotAFunction (callee : str).

(** A step that may throw, and what follows it. *)
Definition bind (E A B : Type) (x : E + A) (f : A -> E + B) : E + B :=
  match x with
  | inl e => inl e
  | inr a => f a
  end.

(** [map] and [forEach] with a callback that may throw: the elements
    are visited in order and the first throw ends the loop. *)
Fixpoint map_throwing (E A B : Type) (f : A -> E + B) (l : list A)
  : E + list B :=
  match l with
  | [] => inr []
  | a :: l' =>
      bind (f a) (fun b =>
      bind (map_throwing f l') (fun bs => inr (b :: bs)))
  end.

(** [filter] with a callback that may throw. *)
Fixpoint filter_throwing (E A : Type) (f : A -> E + bool) (l : list A)
  : E + list A :=
  match l with
  | [] => inr []
  | a :: l' =>
      bind (f a) (fun keep =>
      bind (filter_throwing f l') (fun kept =>
      inr (if keep then a :: kept else kept)))
  end.

(** *** Related posts *)

Record Scored : Type := { post : Post; matches : nat }.

(** [post.tags.includes(tag)]: an array looks the tag up among its
    entries, a string looks for it as a substring, and another value has
    no [includes]. *)
Definition tags_includes (v : tags_value) (tag : str) : type_error + bool :=
  match v with
  | TagsArray l => inr (JsArray.includes l tag)
  | TagsString s => inr (contains tag s)
  | TagsOther => inl (NotAFunction (L "post.tags.includes"))
  end.

(** Lines 159-162: [p.tags.filter(tag => post.tags.includes(tag)).length];
    only an array has [filter]. *)
Definition score (target p : Post) : type_error + Scored :=
  match tags p with
  | TagsArray l =>
      bind (filter_throwing (tags_includes (tags target)) l) (fun kept =>
      inr {| post := p; matches := length kept |})
  | TagsString _ | TagsOther => inl (NotAFunction (L "p.tags.filter"))
  end.

Definition by_matches_desc (a b : Scored) : Z :=
  (Z.of_nat (matches b) - Z.of_nat (matches a))%Z.

(** The chain of lines 157-163, before [sort]. *)
Definition candidates (target : Post) (posts : list Post)
  : type_error + list Scored :=
  bind (map_throwing (score target)
          (filter (fun p => negb (str_eqb (slug p) (slug target))) posts))
    (fun scored => inr (filter (fun x => 0 <? matches x) scored)).

Definition ranked (target : Post) (posts : list Post)
  : type_error + list Scored :=
  bind (candidates target posts) (fun c =>
  inr (JsArray.sort by_matches_desc c)).

Definition related (target : Post) (posts : list Post)
  : type_error + list Post :=
  bind (ranked target posts) (fun r => inr (map post (firstn 3 r))).

(** *** Pages *)

(** [GetSubstitution] for a string pattern, which has no capture: in
    the replacement [$$] stands for a dollar, [$&] for the match, [$`]
    for the text before the match and [$'] for the text behind it; a
    dollar before anything else stands for itself. *)
Fixpoint get_substitution (matched before after repl : str) : str :=
  match repl with
  | [] => []
  | c :: r =>
      if Ascii.eqb c "$" then
        match r with
        | [] => [c]
        | d :: r' =>
            if Ascii.eqb d "$" then
              "$"%char :: get_substitution matched before after r'
            else if Ascii.eqb d "&" then
              matched ++ get_substitution matched before after r'
            else if Ascii.eqb d "`" then
              before ++ get_substitution matched before after r'
            else if Ascii.eqb d "'" then
              after ++ get_substitution matched before after r'
            else c :: get_substitution matched before after r
        end
      else c :: get_substitution matched before after r
  end.

(** [s.replace(pat, repl)] with a string pattern and a replacement that
    may hold dollars: the first occurrence of [pat] is replaced.
    [passed] holds, reversed, the text before the position. *)
Fixpoint replace_first_from (pat repl passed s : str) : str :=
  if starts_with pat s then
    get_substitution pat (rev passed) (skipn (length pat) s) repl
      ++ skipn (length pat) s
  else match s with
       | [] => []
       | a :: t => a :: replace_first_from pat repl (a :: passed) t
       end.

Definition replace_first (pat repl s : str) : str :=
  replace_first_from pat repl [] s.

(** A field of the front matter in a template literal or as a
    replacement: an absent field reads [undefined]. *)
Definition show (o : option str) : str :=
  match o with
  | Some s => s
  | None => L "undefined"
  end.

(** Lines 276 and 329: [/{{base}}/g]. *)
Definition base_re : Regex.re := Regex.lit "{{base}}".

(** [path.join(config.dist, 'posts', `${post.slug}.html`)] for a slug
    without a separator, as the names of a directory give. *)
Definition page_path (p : Post) : str :=
  L "dist/posts/" ++ slug p ++ L ".html".

(** What [fs.writeFileSync] is given: the search index, which
    [JSON.stringify] makes a text of, or the text of a page. *)
Inductive file : Type :=
| SearchJson (index : list SearchRecord)
| Page (html : str).

(** [post.tags.map(f)]: only an array has [map]. *)
Definition tags_map (A : Type) (v : tags_value) (f : str -> A)
  : type_error + list A :=
  match v with
  | TagsArray l => inr (map f l)
  | TagsString _ | TagsOther => inl (NotAFunction (L "post.tags.map"))
  end.

(** Lines 200-202. *)
Definition tagsHtml (post : Post) : type_error + str :=
  bind (tags_map (tags post) (fun tag =>
          Q "<span class='px-3 py-1 text-xs font-semibold rounded-full bg-brand-accent/10 text-brand-accent border border-brand-accent/20'>#"
            ++ tag ++ L "</span>"))
    (fun spans => inr (concat spans)).

(** Line 308, in the list of the home page. *)
Definition homeTagsHtml (post : Post) : type_error + str :=
  bind (tags_map (tags post) (fun tag =>
          Q "<span class='px-2 py-0.5 text-[10px] font-bold uppercase tracking-wider rounded-full bg-white/5 border border-white/10 text-slate-400 group-hover:text-white group-hover:border-white/20 transition-colors'>"
            ++ tag ++ L "</span>"))
    (fun spans => inr (concat spans)).

(** *** [build] *)

Section Run.
(** The values thrown, the [TypeError]s of the script among them. *)
Variable exn : Type.
Variable TypeError : type_error -> exn.
(** [gray-matter]: the front matter and the body, or a throw. *)
Variable matter : str -> exn + (metadata * str).
(** [marked]: its calling convention and the tokens of a body. *)
Variable conv : convention.
Variable marked_lexer : str -> list node.
(** [new Date(data.date)]. *)
Variable parse_date : option str -> option Z.
(** The order in which the engine leaves the posts when the comparator
    of line 139 is not consistent: the language asks for a permutation
    and leaves the rest to the implementation. *)
Variable engine_order : forall l : list Post, {l' : list Post | Permutation l' l}.
(** The text of [config.template] (line 19). *)
Variable templateHtml : str.
(** The template literal of lines 212-270 with what it reads: the
    fields of the post and the markup of lines 168-209, made of the
    post and of its related posts. *)
Variable articleHtml : Post -> list Post -> str.
(** The template literal of lines 284-324, the list of the posts. *)
Variable postsListHtml : list Post -> str.

Definition processMarkdown (content : str) : list toc_entry * str :=
  let (htmlContent, toc) := render_nodes conv (marked_lexer content) [] in
  (toc, htmlContent).

(** The body of [files.forEach] (lines 119-136). *)
Definition compile (file rawContent : str) : exn + Post :=
  match matter rawContent with
  | inl e => inl e
  | inr (data, content) =>
      let (toc, htmlContent) := processMarkdown content in
      inr {| post_title := md_title data;
             description := md_description data;
             author := md_author data;
             slug := slug_of_file file;
             readingTime := getReadingTime content;
             toc := toc;
             htmlContent := htmlContent;
             date := parse_date (md_date data);
             tags := or_tags (md_tags data);
             heroImage := match md_heroImage data with
                          | Some (c :: u) => Some (c :: u)
                          | _ => None
                          end |}
  end.

(** [files.forEach]: the first throw ends the loop. *)
Fixpoint compile_all (files : list (str * str)) : exn + list Post :=
  match files with
  | [] => inr []
  | (file, rawContent) :: files' =>
      match compile file rawContent with
      | inl e => inl e
      | inr p =>
          match compile_all files' with
          | inl e => inl e
          | inr ps => inr (p :: ps)
          end
      end
  end.

(** Line 139: [posts.sort((a, b) => b.date - a.date)]. When every date
    is valid the comparator is consistent and the stable sort has one
    result. *)
Definition sort_posts (ps : list Post) : list Post :=
  if forallb has_date ps then JsArray.sort by_date_desc ps
  else proj1_sig (engine_order ps).

(** Lines 154 and 272-276. *)
Definition post_page (post : Post) (related : list Post) : str :=
  let postHtml := templateHtml in
  let postHtml := replace_first (L "{{title}}") (show (post_title post)) postHtml in
  let postHtml :=
    replace_first (L "{{content}}") (articleHtml post related) postHtml in
  Regex.replace_all base_re (L "..") postHtml.

(** Lines 283 and 327-329. *)
Definition home_page (posts : list Post) : str :=
  let homeHtml := replace_first (L "{{title}}") (L "Home") templateHtml in
  Regex.replace_all base_re (L ".")
    (replace_first (L "{{content}}") (postsListHtml posts) homeHtml).

(** The body of [posts.forEach] (lines 154-278) for one post: its
    related posts and the page that is written, unless line 161 or
    line 200 throws. *)
Definition generate (posts : list Post) (post : Post)
  : type_error + (list Post * (str * file)) :=
  bind (related post posts) (fun related =>
  bind (tagsHtml post) (fun _ =>
  inr (related, (page_path post, Page (post_page post related))))).

(** [posts.forEach] over the posts [rest] that are left: the files
    written, and the related posts of every post or the throw that ends
    the loop. *)
Fixpoint generate_all (posts rest : list Post)
  : list (str * file) * (type_error + list (str * list Post)) :=
  match rest with
  | [] => ([], inr [])
  | post :: rest' =>
      match generate posts post with
      | inl e => ([], inl e)
      | inr (related, page) =>
          let (pages, r) := generate_all posts rest' in
          (page :: pages,
           bind r (fun rs => inr ((slug post, related) :: rs)))
      end
  end.

(** Lines 283-329: the list of the posts reads the tags of every post
    (line 308). *)
Definition home (posts : list Post) : type_error + str :=
  bind (map_throwing homeTagsHtml posts) (fun _ => inr (home_page posts)).

(** What a run hands over: the posts in order, the search index and
    the related posts of every post. *)
Record Site : Type :=
  { posts : list Post; search_json : list SearchRecord;
    related_posts : list (str * list Post) }.

Inductive promise (A : Type) : Type :=
| Fulfilled (a : A)
| Rejected (e : exn).

(** [build] on the entries (name, text) of [config.src]: the files
    written, in order, and the promise it returns. *)
Definition build (dir : list (str * str))
  : list (str * file) * promise Site :=
  let files := filter (fun f => endsWith (L ".md") (fst f)) dir in
  match compile_all files with
  | inl e => ([], Rejected _ e)
  | inr ps =>
      let posts := sort_posts ps in
      let index := searchIndex posts in
      let search := (L "dist/search.json", SearchJson index) in
      match generate_all posts posts with
      | (pages, inl e) => (search :: pages, Rejected _ (TypeError e))
      | (pages, inr related) =>
          match home posts with
          | inl e => (search :: pages, Rejected _ (TypeError e))
          | inr finalHomeHtml =>
              (search :: pages ++ [(L "dist/index.html", Page finalHomeHtml)],
               Fulfilled
                 {| posts := posts; search_json := index;
                    related_posts := related |})
          end
      end
  end.





End Run.

End Build.

(** ** The properties as the specification words them *)

Module Spec.
Import JsString.

(** The words of a body: the maximal runs of characters that are not
    white space. [in_word] tells that the previous character was one. *)
Fixpoint count_words (in_word : bool) (s : str) : nat :=
  match s with
  | [] => 0
  | a :: t =>
      if is_space a then count_words false t
      else (if in_word then 0 else 1) + count_words true t
  end.

(** The maximal runs of white space. [in_run] tells that the previous
    character was white space. *)
Fixpoint space_runs (in_run : bool) (s : str) : nat :=
  match s with
  | [] => 0
  | a :: t =>
      if is_space a then (if in_run then 0 else 1) + space_runs true t
      else space_runs false t
  end.

(** Words over 200 per minute, rounded up, at least 1. *)
Definition readingTimeMinutes (body : str) : nat :=
  Nat.max 1 (Build.ceil_div (count_words false body) 200).

(** Every maximal run of characters outside [A-Za-z0-9_] becomes one
    hyphen. [in_run] tells that the previous character was outside. *)
Fixpoint collapse_runs (in_run : bool) (s : str) : str :=
  match s with
  | [] => []
  | a :: t =>
      if is_word a then a :: collapse_runs false t
      else if in_run then collapse_runs true t
      else "-"%char :: collapse_runs true t
  end.

Definition anchor (T : str) : str := collapse_runs false (toLowerCase T).

(** The characters of an anchor. *)
Definition anchor_char (a : ascii) : bool :=
  is_lower a || is_digit a || (code a =? 95) || (code a =? 45).

(** The text of a heading, its level and its raw source, for both
    shapes of the arguments: an absent text is empty, and the level of
    a token is its depth, else its level, else 1. *)
Definition heading_text (h : Build.heading_args) : str :=
  match h with
  | Build.HeadingToken (Some T) _ _ _ => T
  | Build.HeadingToken None _ _ _ => []
  | Build.HeadingPositional T _ _ => T
  end.

Definition nonzero (n : option Z) : option Z :=
  match n with
  | Some 0%Z | None => None
  | Some n => Some n
  end.

Definition heading_level (h : Build.heading_args) : Z :=
  match h with
  | Build.HeadingToken _ depth level _ =>
      match nonzero depth, nonzero level with
      | Some d, _ => d
      | None, Some l => l
      | None, None => 1%Z
      end
  | Build.HeadingPositional _ lv _ => lv
  end.

Definition heading_raw (h : Build.heading_args) : option str :=
  match h with
  | Build.HeadingToken _ _ _ R => R
  | Build.HeadingPositional _ _ R => R
  end.

(** What the anchor is made of: the raw source when there is one and
    it is not empty, the text otherwise. *)
Definition anchor_source (h : Build.heading_args) : str :=
  match heading_raw h with
  | Some (c :: R) => c :: R
  | Some [] | None => heading_text h
  end.

(** A span runs from a [<] to the next [>], or to the end of the text
    when there is none; [sub] stands for every span. *)
Fixpoint replace_spans (sub : str) (in_span : bool) (s : str) : str :=
  match s with
  | [] => []
  | a :: t =>
      if in_span then
        if Ascii.eqb a ">" then replace_spans sub false t
        else replace_spans sub true t
      else if Ascii.eqb a "<" then sub ++ replace_spans sub true t
      else a :: replace_spans sub false t
  end.

(** Spans deleted, then the cut at 300. *)
Definition snippet_deleting (html : str) : str :=
  firstn 300 (replace_spans [] false html).

(** Spans turned into one space each, then the cut at 300. *)
Definition snippet_blanking (html : str) : str :=
  firstn 300 (replace_spans (L " ") false html).

Definition str_dec : forall s t : str, {s = t} + {s <> t} :=
  list_eq_dec ascii_dec.

Definition mem (l : list str) (t : str) : bool :=
  if in_dec str_dec t l then true else false.

(** The tags of a post whose [tags] is an array. *)
Definition tag_list (p : Build.Post) : list str :=
  match Build.tags p with
  | Build.TagsArray l => l
  | Build.TagsString _ | Build.TagsOther => []
  end.

(** The entries of [other] that occur in [target], a repeated entry
    counted as often as it is repeated: for every tag that [target]
    holds, the number of times [other] holds it. *)
Definition shared_entries (target other : list str) : nat :=
  list_sum (map (count_occ str_dec other) (nodup str_dec target)).

(** The size of the intersection of two tag sets. *)
Definition inter_size (target other : list str) : nat :=
  length (filter (mem other) (nodup str_dec target)).

Definition other_than (target p : Build.Post) : bool :=
  negb (str_eqb (Build.slug p) (Build.slug target)).

(** The posts of [l] with a count above 0, those of the highest count
    first, in the order of [l] among those of one count. *)
Definition by_count (count : Build.Post -> nat) (l : list Build.Post)
  : list Build.Post :=
  flat_map (fun k => filter (fun p => count p =? k) l)
    (rev (seq 1 (list_max (map count l)))).

(** The ranking of the claim, with repeated entries counted again. *)
Definition related_ranking (target : Build.Post) (corpus : list Build.Post)
  : list Build.Post :=
  firstn 3
    (by_count (fun p => shared_entries (tag_list target) (tag_list p))
       (filter (other_than target) corpus)).

(** The ranking with the size of the intersection as the count. *)
Definition related_by_intersection (target : Build.Post)
    (corpus : list Build.Post) : list Build.Post :=
  firstn 3
    (by_count (fun p => inter_size (tag_list target) (tag_list p))
       (filter (other_than target) corpus)).

(** The headings of a document, in document order: all of them, or
    those only that stand in no blockquote. *)
Fixpoint headings (in_quotes : bool) (n : Build.node)
  : list Build.heading_token :=
  match n with
  | Build.NodeHeading h => [h]
  | Build.NodeBlockquote _ inner =>
      if in_quotes then flat_map (headings in_quotes) inner else []
  | Build.NodeOther _ inner => flat_map (headings in_quotes) inner
  end.

(** The headings that reach [renderer.heading]: with tokens as
    arguments the content of a blockquote is not rendered. *)
Definition rendered (conv : Build.convention) : bool :=
  match conv with
  | Build.Positional => true
  | Build.Tokens => false
  end.

Definition or_empty (a b : str) : str :=
  match a with
  | [] => b
  | _ :: _ => a
  end.

(** The entry of a heading: its anchor, its text and its level. With
    tokens the text is the source of the heading's text and the anchor
    is made of the source of the whole heading; with positional
    arguments the text is the rendered text and the anchor is made of
    the plain text, or of the rendered text when the plain text is
    empty. *)
Definition toc_entry_of (conv : Build.convention) (h : Build.heading_token)
  : Build.toc_entry :=
  match conv with
  | Build.Tokens =>
      {| Build.anchor := anchor (or_empty (Build.tk_raw h) (Build.tk_text h));
         Build.text := Build.tk_text h;
         Build.level := Zpos (Build.tk_depth h) |}
  | Build.Positional =>
      {| Build.anchor :=
           anchor (or_empty (Build.tk_plain h) (Build.tk_html h));
         Build.text := Build.tk_html h;
         Build.level := Zpos (Build.tk_depth h) |}
  end.

(** The text of a blockquote that is an alert. *)
Definition alert_shape (content : str) : Prop :=
  exists tok ws line rest,
    In tok Build.alert_tokens
    /\ Forall (fun a => is_space a = true) ws
    /\ Forall (fun a => is_line_terminator a = false) line
    /\ content = L "<p>[!" ++ L tok ++ L "]" ++ ws ++ line ++ L "</p>" ++ rest.


End Spec.

(** ** Documents and posts of the examples *)

Module Examples.
Import Build.

(** A post with a slug, a date and an array of tags. *)
Definition tagged (slug : string) (date : Z) (tags : list string) : Post :=
  {| post_title := None; description := None; author := None;
     slug := L slug; readingTime := 1; toc := []; htmlContent := [];
     date := Some date; tags := TagsArray (map L tags); heroImage := None |}.

Definition no_metadata : metadata :=
  {| md_title := None; md_date := None; md_description := None;
     md_author := None; md_heroImage := None; md_tags := None |}.

(** A document whose front matter is no YAML: a flow sequence is left
    open. *)
Definition malformed_doc : str :=
  L "---" ++ nl ++ L "title: [a" ++ nl ++ L "---" ++ nl ++ L "Body".

(** A document whose [tags] is a scalar. *)
Definition scalar_tags_doc : str :=
  L "---" ++ nl ++ L "tags: web" ++ nl ++ L "---" ++ nl ++ L "Body".

Inductive thrown : Type :=
| YAMLException
| TypeErrorOf (e : type_error).

(** [gray-matter] on the documents of the examples: the parser of YAML
    throws on the front matter of [malformed_doc]; the data of
    [scalar_tags_doc] hold the string [web] as [tags]; a text that does
    not open with the fence [---] has no front matter, its data are
    empty and its content is the text. The examples hold no other text
    that opens with a fence. *)
Definition example_matter (raw : str) : thrown + (metadata * str) :=
  if str_eqb raw malformed_doc then inl YAMLException
  else if str_eqb raw scalar_tags_doc then
    inr ({| md_title := None; md_date := None; md_description := None;
            md_author := None; md_heroImage := None;
            md_tags := Some (TagsString (L "web")) |}, L "Body")
  else inr (no_metadata, raw).

(** A template with the three placeholders. *)
Definition example_template : str :=
  L "<title>{{title}}</title><a href='{{base}}/'>{{content}}</a>".

(** [marked] on the bodies of the examples, each a line of plain
    words: one paragraph. *)
Definition example_lexer (body : str) : list node :=
  [NodeOther (fun _ => L "<p>" ++ body ++ L "</p>" ++ nl) []].

(** An engine that leaves the posts as they are, as a stable sort does
    when no date is valid. *)
Definition example_order (l : list Post) : {l' : list Post | Permutation l' l} :=
  exist _ l (Permutation_refl l).

(** A run on documents of the examples: no date is valid, every
    article is [<p>a</p>] and the list of the home page is
    [<ul></ul>]. *)
Definition example_build (dir : list (str * str))
  : list (str * file) * promise thrown Site :=
  build TypeErrorOf example_matter Tokens example_lexer (fun _ => None)
    example_order example_template (fun _ _ => L "<p>a</p>")
    (fun _ => L "<ul></ul>") dir.


End Examples.

(** ** The builtins on known results *)

Section Builtins.
Import Regex JsString.

(** ["aab".replace(/a*/g, "-")] is ["--b-"]: an empty match follows the
    match of [aa], another one the [b]. *)
Example replace_all_empty_matches :
  replace_all (Star true (chr "a")) (L "-") (L "aab") = L "--b-".
Proof. reflexivity. Qed.

(** ["a b   c ".split(/\s+/)] is [["a", "b", "c", ""]], and
    [" a".split(/\s+/)] is [["", "a"]]. *)
Example split_white_space :
  split (plus (Chr is_space)) (L "a b   c ") = [L "a"; L "b"; L "c"; []]
  /\ split (plus (Chr is_space)) (L " a") = [[]; L "a"]
  /\ split (plus (Chr is_space)) [] = [[]].
Proof. repeat split; reflexivity. Qed.

(** ["abc".split(/x*/)] is [["a", "b", "c"]]: empty matches separate the
    characters, and none is taken at the start of a piece. *)
Example split_empty_matches :
  split (Star true (chr "x")) (L "abc") = [L "a"; L "b"; L "c"].
Proof. reflexivity. Qed.

(** A lazy repetition stops at the first [>], a greedy one at the last. *)
Example lazy_and_greedy :
  exec (seq [chr "<"; Group 1 (Star false any); chr ">"]) (L "x<a><b>")
  = Some (1, 4, [(1, L "a")])
  /\ exec (seq [chr "<"; Group 1 (Star true any); chr ">"]) (L "x<a><b>")
     = Some (1, 7, [(1, L "a><b")]).
Proof. split; reflexivity. Qed.

Example trim_both_ends : trim (L "  a b  ") = L "a b".
Proof. reflexivity. Qed.

Example replace_str_first : replace_str (L "ab") (L "-") (L "xabab") = L "x-ab".
Proof. reflexivity. Qed.

End Builtins.

(** ** Facts on the matcher *)

Section Matcher.
Import Regex.

Lemma m_cat (R : Type) r1 r2 i s c (k : cont R) :
  m (Cat r1 r2) i s c k = m r1 i s c (fun i' s' c' => m r2 i' s' c' k).
Proof. reflexivity. Qed.

Lemma m_chr (R : Type) p i s c (k : cont R) :
  m (Chr p) i s c k =
  match s with
  | a :: t => if p a then k (S i) t c else None
  | [] => None
  end.
Proof. reflexivity. Qed.

Lemma m_alt (R : Type) r1 r2 i s c (k : cont R) :
  m (Alt r1 r2) i s c k =
  match m r1 i s c k with Some x => Some x | None => m r2 i s c k end.
Proof. reflexivity. Qed.

Lemma m_eps (R : Type) i s c (k : cont R) : m Eps i s c k = k i s c.
Proof. reflexivity. Qed.

Lemma m_group (R : Type) j r i s c (k : cont R) :
  m (Group j r) i s c k
  = m r i s c (fun i' s' c' => k i' s' ((j, firstn (i' - i) s) :: c')).
Proof. reflexivity. Qed.

Lemma m_star (R : Type) g r i s c (k : cont R) :
  m (Star g r) i s c k = star_loop (m r) g k (length s) i s c.
Proof. reflexivity. Qed.

Lemma m_bol (R : Type) i s c (k : cont R) :
  m Bol i s c k = if i =? 0 then k i s c else None.
Proof. reflexivity. Qed.

Lemma exec_from_match r i s e c :
  match_at r i s = Some (e, c) -> exec_from r i s = Some (i, e, c).
Proof. intros H. destruct s; cbn [exec_from]; rewrite H; reflexivity. Qed.

Lemma some_or_else (R : Type) (o o' : option R) :
  o <> None -> match o with Some x => Some x | None => o' end = o.
Proof. destruct o; congruence. Qed.

(** A greedy repetition of a class takes the longest run when the
    continuation accepts what follows it. *)
Lemma star_loop_class (R : Type) (p : ascii -> bool) (k : cont R) :
  forall s n i c,
    length s <= n ->
    k (i + length (take_while p s)) (drop_while p s) c <> None ->
    star_loop (m (Chr p)) true k n i s c
    = k (i + length (take_while p s)) (drop_while p s) c.
Proof.
  induction s as [|a t IH]; intros n i c Hn Hk.
  - cbn [take_while drop_while length] in *. rewrite Nat.add_0_r in *.
    destruct n; reflexivity.
  - destruct n as [|n]; [cbn in Hn; lia|].
    cbn [star_loop m take_while drop_while] in *.
    destruct (p a) eqn:Hp.
    + cbn [length] in *.
      replace (i <? S i) with true by (symmetry; apply Nat.ltb_lt; lia).
      replace (i + S (length (take_while p t)))
        with (S i + length (take_while p t)) in * by lia.
      rewrite IH by (auto; lia).
      apply some_or_else; assumption.
    + cbn [length] in *. rewrite Nat.add_0_r in *. reflexivity.
Qed.

Lemma star_class (R : Type) (p : ascii -> bool) (k : cont R) s i c :
  k (i + length (take_while p s)) (drop_while p s) c <> None ->
  m (Star true (Chr p)) i s c k
  = k (i + length (take_while p s)) (drop_while p s) c.
Proof. intros H. cbn [m]. apply star_loop_class; auto. Qed.

(** One or more characters of a class, at [q]. *)
Lemma match_at_plus (p : ascii -> bool) q s :
  match_at (plus (Chr p)) q s =
  match s with
  | a :: t => if p a then Some (S q + length (take_while p t), []) else None
  | [] => None
  end.
Proof.
  unfold match_at, plus. rewrite m_cat, m_chr.
  destruct s as [|a t]; [reflexivity|].
  destruct (p a); [|reflexivity].
  rewrite star_class; unfold accept; [reflexivity | discriminate].
Qed.

End Matcher.

(** ** Anchors of headings *)

Section Anchors.
Import Regex JsString Build.

Let outside (a : ascii) : bool := negb (is_word a).

(** The scan of [replace] with [/[^\w]+/g] against the run-by-run
    definition: outside a match, and with the rest of a run to drop. *)
Lemma replace_scan_nonword s :
  (forall q, replace_scan nonword_plus (L "-") q s 0
             = Spec.collapse_runs false s) /\
  (forall q, replace_scan nonword_plus (L "-") q s
               (length (take_while outside s))
             = Spec.collapse_runs true s).
Proof.
  unfold nonword_plus. fold outside.
  induction s as [|a t [IH0 IH1]].
  - split; intros q; cbn [replace_scan take_while length];
      rewrite match_at_plus; reflexivity.
  - assert (H0 : forall q, replace_scan (plus (Chr outside)) (L "-") q (a :: t) 0
                           = Spec.collapse_runs false (a :: t)).
    { intros q. cbn [replace_scan Spec.collapse_runs].
      rewrite match_at_plus. change (outside a) with (negb (is_word a)).
      destruct (is_word a); cbn [negb].
      - now rewrite IH0.
      - replace (S q + length (take_while outside t) =? q) with false
          by (symmetry; apply Nat.eqb_neq; lia).
        replace (S q + length (take_while outside t) - q - 1)
          with (length (take_while outside t)) by lia.
        now rewrite IH1. }
    split; [exact H0|].
    intros q. cbn [take_while]. change (outside a) with (negb (is_word a)).
    destruct (is_word a) eqn:Hw; cbn [negb length].
    + rewrite H0. cbn [Spec.collapse_runs]. now rewrite Hw.
    + cbn [replace_scan Spec.collapse_runs]. rewrite Hw. apply IH1.
Qed.

Lemma slugify_spec s : slugify s = Spec.anchor s.
Proof. apply (proj1 (replace_scan_nonword (toLowerCase s))). Qed.

Lemma lower_char_not_upper a : is_upper (lower_char a) = false.
Proof.
  destruct a as [[] [] [] [] [] [] [] []]; vm_compute; reflexivity.
Qed.

Lemma word_not_upper_anchor_char a :
  is_word a = true -> is_upper a = false -> Spec.anchor_char a = true.
Proof.
  unfold is_word, Spec.anchor_char. intros H U. rewrite U in H.
  cbn [orb] in H. rewrite H. reflexivity.
Qed.

Lemma collapse_runs_charset b s :
  Forall (fun a => is_upper a = false) s ->
  Forall (fun a => Spec.anchor_char a = true) (Spec.collapse_runs b s).
Proof.
  intros H. revert b. induction H as [|a t Ha Ht IH]; intros b.
  - constructor.
  - cbn [Spec.collapse_runs]. destruct (is_word a) eqn:Hw.
    + constructor; [now apply word_not_upper_anchor_char | apply IH].
    + destruct b; [apply IH | constructor; [reflexivity | apply IH]].
Qed.

Lemma slugify_charset s :
  Forall (fun a => Spec.anchor_char a = true) (slugify s).
Proof.
  rewrite slugify_spec. apply collapse_runs_charset.
  unfold toLowerCase. apply Forall_forall. intros a Ha.
  apply in_map_iff in Ha. destruct Ha as [x [<- _]].
  apply lower_char_not_upper.
Qed.

End Anchors.

(** ** Reading time *)

Section ReadingTime.
Import Regex JsString Build.

(** [split] on [/\s+/] yields one piece more than the text has runs of
    white space. *)
Lemma split_scan_runs s :
  (forall q acc, length (split_scan ws_plus q s acc 0)
                 = 1 + Spec.space_runs false s) /\
  (forall q acc, length (split_scan ws_plus q s acc
                           (length (take_while is_space s)))
                 = 1 + Spec.space_runs true s).
Proof.
  unfold ws_plus.
  induction s as [|a t [IH0 IH1]].
  - split; intros q acc; reflexivity.
  - assert (H0 : forall q acc,
               length (split_scan (plus (Chr is_space)) q (a :: t) acc 0)
               = 1 + Spec.space_runs false (a :: t)).
    { intros q acc. cbn [split_scan Spec.space_runs].
      rewrite match_at_plus. destruct (is_space a).
      - replace (S q + length (take_while is_space t) =? q) with false
          by (symmetry; apply Nat.eqb_neq; lia).
        replace (S q + length (take_while is_space t) - q - 1)
          with (length (take_while is_space t)) by lia.
        cbn [length]. rewrite IH1. reflexivity.
      - apply IH0. }
    split; [exact H0|].
    intros q acc. cbn [take_while].
    destruct (is_space a) eqn:Hs; cbn [length].
    + cbn [split_scan Spec.space_runs]. rewrite Hs. apply IH1.
    + rewrite H0. cbn [Spec.space_runs]. rewrite Hs. reflexivity.
Qed.

Lemma count_words_trimEnd s :
  forall b, Spec.count_words b (trimEnd s) = Spec.count_words b s.
Proof.
  induction s as [|a t IH]; intros b; [reflexivity|].
  cbn [trimEnd Spec.count_words].
  destruct (trimEnd t) as [|c u] eqn:Ht.
  - destruct (is_space a) eqn:Hs.
    + rewrite <- IH. reflexivity.
    + cbn [Spec.count_words]. rewrite Hs, <- IH. reflexivity.
  - cbn [Spec.count_words]. destruct (is_space a); rewrite <- !IH; reflexivity.
Qed.

Lemma count_words_trimStart s :
  Spec.count_words false (trimStart s) = Spec.count_words false s.
Proof.
  unfold trimStart. induction s as [|a t IH]; [reflexivity|].
  cbn [drop_while Spec.count_words].
  destruct (is_space a) eqn:Hs; [exact IH|].
  cbn [Spec.count_words]. rewrite Hs. reflexivity.
Qed.

(** In a text that ends in a word, words and runs of white space
    alternate. *)
Lemma trimEnd_words_runs s :
  trimEnd s = [] \/
  (Spec.count_words false (trimEnd s) = 1 + Spec.space_runs true (trimEnd s) /\
   Spec.count_words true (trimEnd s) = Spec.space_runs false (trimEnd s)).
Proof.
  induction s as [|a t IH]; [left; reflexivity|].
  cbn [trimEnd]. destruct (trimEnd t) as [|c u] eqn:Ht.
  - destruct (is_space a) eqn:Hs; [left; reflexivity|].
    right. cbn [Spec.count_words Spec.space_runs]. rewrite Hs. split; reflexivity.
  - right. destruct IH as [IH|[IH1 IH2]]; [discriminate|].
    remember (c :: u) as v.
    cbn [Spec.count_words Spec.space_runs].
    destruct (is_space a); cbn [Nat.add]; split; lia.
Qed.

Lemma trimEnd_head s a t : trimEnd s = a :: t -> exists t0, s = a :: t0.
Proof.
  destruct s as [|b u]; [discriminate|]. cbn [trimEnd].
  destruct (trimEnd u); [destruct (is_space b)|]; intros H;
    inversion H; subst; eauto.
Qed.

Lemma drop_while_head p s a t : drop_while p s = a :: t -> p a = false.
Proof.
  induction s as [|b u IH]; [discriminate|]. cbn [drop_while].
  destruct (p b) eqn:Hp; [exact IH|]. intros H. inversion H; subst. exact Hp.
Qed.

(** The pieces of the trimmed text are its words, but for the one empty
    piece of a text without a word. *)
Lemma split_trim_length s :
  length (split ws_plus (trim s)) = Nat.max 1 (Spec.count_words false s).
Proof.
  rewrite <- (count_words_trimStart s), <- (count_words_trimEnd (trimStart s)).
  unfold trim. destruct (trimEnd (trimStart s)) as [|a t] eqn:Hu.
  - reflexivity.
  - destruct (trimEnd_words_runs (trimStart s)) as [H|[H _]];
      [congruence|].
    rewrite Hu in H. rewrite H.
    destruct (trimEnd_head _ Hu) as [t0 Ht0].
    apply drop_while_head in Ht0.
    unfold split. rewrite (proj1 (split_scan_runs (a :: t))).
    cbn [Spec.space_runs]. rewrite Ht0. lia.
Qed.

Lemma ceil_div_200_pos n : 1 <= n -> 1 <= ceil_div n 200.
Proof.
  intros H. unfold ceil_div.
  apply (Nat.div_le_lower_bound (n + (200 - 1)) 200 1); lia.
Qed.

End ReadingTime.

(** ** Search snippets *)

Section Snippets.
Import Regex JsString Build.

Let inside (a : ascii) : bool := negb (Ascii.eqb a ">").

(** What is left of a span behind its [<]: the characters up to the next
    [>], and that [>] when there is one. *)
Let span_rest (s : str) : nat :=
  length (take_while inside s)
  + match drop_while inside s with [] => 0 | _ :: _ => 1 end.

Lemma match_at_tag q s :
  match_at tag_re q s =
  match s with
  | a :: t => if Ascii.eqb "<" a then Some (S q + span_rest t, []) else None
  | [] => None
  end.
Proof.
  unfold match_at, tag_re, seq, opt, chr. cbn [fold_right].
  rewrite m_cat, m_chr. destruct s as [|a t]; [reflexivity|].
  destruct (Ascii.eqb "<" a); [|reflexivity].
  rewrite m_cat. fold inside.
  assert (K : m (Cat (Alt (Chr (Ascii.eqb ">")) Eps) Eps)
                (S q + length (take_while inside t)) (drop_while inside t) []
                accept
              = Some (S q + span_rest t, [])).
  { rewrite m_cat, m_alt, m_chr. unfold span_rest.
    destruct (drop_while inside t) as [|b d] eqn:Hd.
    - rewrite !m_eps. unfold accept. f_equal. f_equal. lia.
    - apply drop_while_head in Hd. unfold inside in Hd.
      apply negb_false_iff in Hd. rewrite Ascii.eqb_sym, Hd.
      rewrite m_eps. unfold accept. f_equal. f_equal. lia. }
  rewrite star_class; rewrite K; [reflexivity | discriminate].
Qed.

Lemma replace_scan_tag sub s :
  (forall q, replace_scan tag_re sub q s 0 = Spec.replace_spans sub false s) /\
  (forall q, replace_scan tag_re sub q s (span_rest s)
             = Spec.replace_spans sub true s).
Proof.
  induction s as [|a t [IH0 IH1]].
  - split; intros q; cbn [replace_scan]; [rewrite match_at_tag|]; reflexivity.
  - assert (H0 : forall q, replace_scan tag_re sub q (a :: t) 0
                           = Spec.replace_spans sub false (a :: t)).
    { intros q. cbn [replace_scan Spec.replace_spans].
      rewrite match_at_tag, (Ascii.eqb_sym "<" a).
      destruct (Ascii.eqb a "<").
      - replace (S q + span_rest t =? q) with false
          by (symmetry; apply Nat.eqb_neq; lia).
        replace (S q + span_rest t - q - 1) with (span_rest t) by lia.
        now rewrite IH1.
      - now rewrite IH0. }
    split; [exact H0|].
    intros q. unfold span_rest. cbn [take_while drop_while Spec.replace_spans].
    change (inside a) with (negb (Ascii.eqb a ">")).
    destruct (Ascii.eqb a ">"); cbn [negb length Nat.add].
    + cbn [replace_scan]. apply IH0.
    + cbn [replace_scan]. apply IH1.
Qed.

Lemma snippet_blanks html : snippet html = Spec.snippet_blanking html.
Proof.
  unfold snippet, Spec.snippet_blanking, substring0, replace_all.
  now rewrite (proj1 (replace_scan_tag (L " ") html)).
Qed.

End Snippets.

(** ** Sorting and tags *)

Section Sorting.
Import JsArray.

Variable A : Type.
Variable key : A -> nat.

(** The comparators of the script subtract keys: [b.key - a.key]. *)
Let desc (a b : A) : Z := (Z.of_nat (key b) - Z.of_nat (key a))%Z.

Lemma insert_perm x l : Permutation (insert desc x l) (x :: l).
Proof.
  induction l as [|y l IH]; cbn [insert]; [reflexivity|].
  destruct (0 <? desc x y)%Z; [|reflexivity].
  rewrite IH. apply perm_swap.
Qed.

Lemma sort_perm l : Permutation (sort desc l) l.
Proof.
  induction l as [|x l IH]; cbn [sort]; [constructor|].
  rewrite insert_perm. now constructor.
Qed.

Lemma insert_sorted x l :
  StronglySorted (fun a b => key b <= key a) l ->
  StronglySorted (fun a b => key b <= key a) (insert desc x l).
Proof.
  induction 1 as [|y l Hl IH Hy]; cbn [insert].
  - repeat constructor.
  - destruct (0 <? desc x y)%Z eqn:Hc.
    + constructor; [exact IH|].
      apply Z.ltb_lt in Hc. unfold desc in Hc.
      apply (Permutation_Forall (Permutation_sym (insert_perm x l))).
      constructor; [lia | exact Hy].
    + apply Z.ltb_ge in Hc. unfold desc in Hc.
      constructor; [now constructor|].
      constructor; [lia|].
      eapply Forall_impl; [|exact Hy]. cbn. intros; lia.
Qed.

Lemma sort_sorted l : StronglySorted (fun a b => key b <= key a) (sort desc l).
Proof.
  induction l as [|x l IH]; cbn [sort]; [constructor|].
  now apply insert_sorted.
Qed.

(** Stability: the elements of one key keep their order. *)
Lemma insert_stable k x l :
  filter (fun a => key a =? k) (insert desc x l)
  = filter (fun a => key a =? k) (x :: l).
Proof.
  induction l as [|y l IH]; cbn [insert]; [reflexivity|].
  destruct (0 <? desc x y)%Z eqn:Hc; [|reflexivity].
  apply Z.ltb_lt in Hc. unfold desc in Hc.
  cbn [filter] in *. rewrite IH.
  destruct (key x =? k) eqn:Hx; [|reflexivity].
  apply Nat.eqb_eq in Hx.
  replace (key y =? k) with false by (symmetry; apply Nat.eqb_neq; lia).
  reflexivity.
Qed.

Lemma sort_stable k l :
  filter (fun a => key a =? k) (sort desc l) = filter (fun a => key a =? k) l.
Proof.
  induction l as [|x l IH]; cbn [sort]; [reflexivity|].
  rewrite insert_stable. cbn [filter]. now rewrite IH.
Qed.

Lemma filter_none (P : A -> bool) l :
  (forall x, In x l -> P x = false) -> filter P l = [].
Proof.
  induction l as [|x l IH]; intros H; [reflexivity|].
  cbn [filter]. rewrite (H x) by now left.
  apply IH. intros y Hy. apply H. now right.
Qed.

Lemma filter_all (P : A -> bool) l :
  (forall x, In x l -> P x = true) -> filter P l = l.
Proof.
  induction l as [|x l IH]; intros H; [reflexivity|].
  cbn [filter]. rewrite (H x) by now left.
  f_equal. apply IH. intros y Hy. apply H. now right.
Qed.

(** In a list sorted by descending key, the elements of the higher
    keys stand before those of the lower keys. *)
Lemma filter_app_sorted (P Q : A -> bool) l :
  StronglySorted (fun a b => key b <= key a) l ->
  (forall x y, P x = true -> Q y = true -> key y < key x) ->
  filter P l ++ filter Q l = filter (fun x => P x || Q x) l.
Proof.
  intros Hs Hpq. induction Hs as [|x l Hl IH Hx]; [reflexivity|].
  cbn [filter]. destruct (P x) eqn:Px; cbn [orb].
  - destruct (Q x) eqn:Qx; [specialize (Hpq x x Px Qx); lia|].
    cbn [app]. now rewrite IH.
  - destruct (Q x) eqn:Qx; [|exact IH].
    rewrite <- IH.
    assert (E : filter P l = []).
    { apply filter_none. intros y Hy. destruct (P y) eqn:Py; [|reflexivity].
      specialize (Hpq y x Py Qx). rewrite Forall_forall in Hx.
      specialize (Hx y Hy). lia. }
    rewrite E. reflexivity.
Qed.

(** A list sorted by descending key is made of its elements of the key
    [n], then those of the key [n - 1], and so on. *)
Lemma sorted_levels s n :
  StronglySorted (fun a b => key b <= key a) s ->
  flat_map (fun k => filter (fun a => key a =? k) s) (rev (seq 1 n))
  = filter (fun a => (1 <=? key a) && (key a <=? n)) s.
Proof.
  intros Hs. induction n as [|n IH].
  - cbn [seq rev flat_map]. symmetry. apply filter_none. intros x _.
    destruct (Nat.leb_spec 1 (key x)), (Nat.leb_spec (key x) 0);
      try reflexivity; lia.
  - rewrite seq_S, rev_app_distr. cbn [rev app flat_map]. rewrite IH.
    rewrite filter_app_sorted; [|exact Hs|].
    + apply filter_ext. intros a.
      destruct (Nat.eqb_spec (key a) (1 + n)), (Nat.leb_spec 1 (key a)),
        (Nat.leb_spec (key a) n), (Nat.leb_spec (key a) (S n));
        try reflexivity; lia.
    + intros x y Hx Hy. apply Nat.eqb_eq in Hx.
      apply andb_true_iff in Hy. destruct Hy as [_ Hy].
      apply Nat.leb_le in Hy. lia.
Qed.

(** The sort, level by level: the elements of every key in the order
    they had, the highest key first. *)
Lemma sort_levels l n :
  (forall x, In x l -> 1 <= key x <= n) ->
  sort desc l
  = flat_map (fun k => filter (fun a => key a =? k) l) (rev (seq 1 n)).
Proof.
  intros H.
  rewrite <- (filter_all (fun a => (1 <=? key a) && (key a <=? n))
                (sort desc l)).
  - rewrite <- sorted_levels by apply sort_sorted.
    apply flat_map_ext. intros k. apply sort_stable.
  - intros x Hx. apply (Permutation_in _ (sort_perm l)) in Hx.
    specialize (H x Hx). apply andb_true_iff.
    split; apply Nat.leb_le; lia.
Qed.

End Sorting.

Section ByKey.
Import JsArray.
(** A comparator that subtracts keys on the elements that have one. *)
Variable A : Type.
Variable cmp : A -> A -> Z.
Variable key : A -> Z.
Variable valid : A -> Prop.
Hypothesis cmp_key :
  forall a b, valid a -> valid b -> cmp a b = (key b - key a)%Z.

Lemma insert_permutation x l : Permutation (insert cmp x l) (x :: l).
Proof.
  induction l as [|y l IH]; cbn [insert]; [reflexivity|].
  destruct (0 <? cmp x y)%Z; [|reflexivity].
  rewrite IH. apply perm_swap.
Qed.

Lemma sort_permutation l : Permutation (sort cmp l) l.
Proof.
  induction l as [|x l IH]; cbn [sort]; [constructor|].
  rewrite insert_permutation. now constructor.
Qed.





End ByKey.

Section Tags.
Import JsArray.

Lemma str_eqb_eq s t : str_eqb s t = true <-> s = t.
Proof.
  revert t. induction s as [|a s IH]; intros [|b t]; cbn [str_eqb];
    try (split; [discriminate | congruence]); [tauto|].
  rewrite andb_true_iff, Ascii.eqb_eq, IH.
  split; [intros [-> ->]; reflexivity | intros H; inversion H; auto].
Qed.

Lemma includes_In l x : includes l x = true <-> In x l.
Proof.
  unfold includes. rewrite existsb_exists. split.
  - intros [y [Hy He]]. apply str_eqb_eq in He. now subst.
  - intros H. exists x. split; [exact H | now apply str_eqb_eq].
Qed.

Lemma mem_In l t : Spec.mem l t = true <-> In t l.
Proof.
  unfold Spec.mem. destruct (in_dec Spec.str_dec t l); split;
    auto; discriminate.
Qed.

Lemma list_sum_step n l : list_sum (n :: l) = n + list_sum l.
Proof. reflexivity. Qed.

Lemma list_sum_map_add (B : Type) (f g : B -> nat) l :
  list_sum (map (fun x => f x + g x) l)
  = list_sum (map f l) + list_sum (map g l).
Proof.
  induction l as [|x l IH]; [reflexivity|]. cbn [map]. rewrite !list_sum_step.
  rewrite IH. lia.
Qed.

(** In a list without a repeated entry, [x] is met once or never. *)
Lemma sum_indicator x (l : list str) :
  NoDup l ->
  list_sum (map (fun t => if Spec.str_dec x t then 1 else 0) l)
  = if Spec.mem l x then 1 else 0.
Proof.
  induction 1 as [|t l Ht Hl IH]; [reflexivity|].
  cbn [map]. rewrite list_sum_step, IH. unfold Spec.mem.
  destruct (Spec.str_dec x t) as [->|Hn].
  - destruct (in_dec Spec.str_dec t l); [contradiction|].
    destruct (in_dec Spec.str_dec t (t :: l)) as [_|Hc];
      [reflexivity | exfalso; apply Hc; now left].
  - destruct (in_dec Spec.str_dec x l) as [Hi|Hi];
      destruct (in_dec Spec.str_dec x (t :: l)) as [Hj|Hj];
      try reflexivity; exfalso.
    + apply Hj. now right.
    + destruct Hj as [Hj|Hj]; [now apply Hn | now apply Hi].
Qed.

(** The entries of [other] that the filter of line 161 keeps are as
    many as [other] shares with [target], repetitions counted. *)
Lemma filter_length_shared target other :
  length (filter (includes target) other) = Spec.shared_entries target other.
Proof.
  unfold Spec.shared_entries. induction other as [|x o IH].
  - cbn [filter length]. induction (nodup Spec.str_dec target) as [|t l IHl];
      [reflexivity | exact IHl].
  - rewrite (map_ext (count_occ Spec.str_dec (x :: o))
               (fun t => (if Spec.str_dec x t then 1 else 0)
                         + count_occ Spec.str_dec o t)).
    + rewrite list_sum_map_add, <- IH.
      rewrite sum_indicator by apply NoDup_nodup.
      cbn [filter]. destruct (includes target x) eqn:E.
      * apply includes_In in E.
        assert (M : Spec.mem (nodup Spec.str_dec target) x = true)
          by (apply mem_In; now apply nodup_In).
        rewrite M. reflexivity.
      * assert (M : Spec.mem (nodup Spec.str_dec target) x = false).
        { destruct (Spec.mem (nodup Spec.str_dec target) x) eqn:M;
            [|reflexivity].
          apply mem_In, nodup_In, includes_In in M. congruence. }
        rewrite M. reflexivity.
    + intros t. cbn [count_occ]. destruct (Spec.str_dec x t); reflexivity.
Qed.

(** When [other] repeats no entry, those are as many as the
    intersection has members. *)
Lemma shared_inter target other :
  NoDup other ->
  Spec.shared_entries target other = Spec.inter_size target other.
Proof.
  intros Hn. unfold Spec.shared_entries, Spec.inter_size.
  induction (nodup Spec.str_dec target) as [|t l IH]; [reflexivity|].
  cbn [map filter]. rewrite list_sum_step, IH.
  pose proof (proj1 (NoDup_count_occ Spec.str_dec other) Hn t) as H1.
  destruct (Spec.mem other t) eqn:M.
  - apply mem_In in M. apply (count_occ_In Spec.str_dec) in M.
    cbn [length]. lia.
  - assert (Z0 : count_occ Spec.str_dec other t = 0).
    { apply count_occ_not_In. intros Hin. apply mem_In in Hin. congruence. }
    rewrite Z0. reflexivity.
Qed.

End Tags.

(** ** Alerts *)

Section Alerts.
Import Regex JsString Build.

Lemma m_lit_app (R : Type) w z i c (k : cont R) :
  m (seq (map chr w)) i (w ++ z) c k = k (i + length w) z c.
Proof.
  revert i. induction w as [|a w IH]; intros i.
  - cbn [map seq fold_right app length]. rewrite m_eps. f_equal. lia.
  - cbn [map seq fold_right app length]. rewrite m_cat.
    unfold chr at 1. rewrite m_chr, Ascii.eqb_refl.
    fold (seq (map chr w)). rewrite IH. f_equal. lia.
Qed.

Lemma star_greedy_success (R : Type) step (k : cont R) n i s c :
  k i s c <> None -> star_loop step true k n i s c <> None.
Proof.
  intros H. destruct n; cbn [star_loop]; [exact H|].
  match goal with |- match ?o with _ => _ end <> None => destruct o end;
    [discriminate | exact H].
Qed.

(** A lazy repetition of a class reaches the end of a run of the class
    when the continuation accepts there, if not before. *)
Lemma star_lazy_success (R : Type) p (k : cont R) x z :
  Forall (fun a => p a = true) x ->
  forall n i c,
    length (x ++ z) <= n ->
    k (i + length x) z c <> None ->
    star_loop (m (Chr p)) false k n i (x ++ z) c <> None.
Proof.
  induction 1 as [|a x Ha Hx IH]; intros n i c Hn Hk.
  - cbn [app length] in *. rewrite Nat.add_0_r in Hk.
    destruct n; cbn [star_loop]; destruct (k i z c); congruence.
  - cbn [app length] in *. destruct n as [|n]; [lia|].
    cbn [star_loop]. destruct (k i (a :: x ++ z) c); [discriminate|].
    rewrite m_chr, Ha.
    replace (i <? S i) with true by (symmetry; apply Nat.ltb_lt; lia).
    apply IH; [lia|]. replace (S i + length x) with (i + S (length x)) by lia.
    exact Hk.
Qed.

(** [avoids j r]: the pattern has no group numbered [j]. *)
Fixpoint avoids (j : nat) (r : re) : bool :=
  match r with
  | Group j' r' => negb (j =? j') && avoids j r'
  | Cat r1 r2 | Alt r1 r2 => avoids j r1 && avoids j r2
  | Star _ r' => avoids j r'
  | Eps | Chr _ | Bol => true
  end.

Section Safe.
Variable j : nat.
Variable v : option str.

(** Every result keeps the capture [j]. *)
Let safe (o : option (nat * caps)) : Prop :=
  forall e c', o = Some (e, c') -> cap j c' = v.

Let safe_cont (k : cont (nat * caps)) : Prop :=
  forall i s c, cap j c = v -> safe (k i s c).

Lemma star_loop_safe step g k :
  (forall k', safe_cont k' -> safe_cont (fun i s c => step i s c k')) ->
  safe_cont k ->
  forall n, safe_cont (star_loop step g k n).
Proof.
  intros Hstep Hk. induction n as [|n IH]; intros i s c Hc e c'.
  - cbn [star_loop]. destruct g; [apply Hk; exact Hc|].
    destruct (k i s c) as [[e0 c0]|] eqn:E; [|discriminate].
    intros H; inversion H; subst. eapply Hk; eauto.
  - assert (Hloop : safe (step i s c (fun i' s' c' =>
              if i <? i' then star_loop step g k n i' s' c' else None))).
    { apply Hstep; [|exact Hc]. intros i' s' c'' Hc'' e' c3.
      destruct (i <? i'); [apply IH; exact Hc'' | discriminate]. }
    cbn [star_loop]. destruct g.
    + match goal with |- match ?o with _ => _ end = _ -> _ =>
        destruct o as [[e0 c0]|] eqn:E end.
      * intros H; inversion H; subst. eapply Hloop; eauto.
      * apply Hk; exact Hc.
    + destruct (k i s c) as [[e0 c0]|] eqn:E.
      * intros H; inversion H; subst. eapply Hk; eauto.
      * apply Hloop.
Qed.

Lemma m_safe r :
  avoids j r = true ->
  forall k, safe_cont k -> safe_cont (fun i s c => m r i s c k).
Proof.
  induction r as [|p|r1 IH1 r2 IH2|r1 IH1 r2 IH2|g r IH|j' r IH|];
    cbn [avoids]; intros Hr k Hk i s c Hc e c'.
  - rewrite m_eps. apply Hk; exact Hc.
  - rewrite m_chr. destruct s as [|a t]; [discriminate|].
    destruct (p a); [apply Hk; exact Hc | discriminate].
  - apply andb_true_iff in Hr. destruct Hr as [H1 H2].
    rewrite m_cat. apply (IH1 H1 (fun i' s' c' => m r2 i' s' c' k)); [|exact Hc].
    apply IH2; assumption.
  - apply andb_true_iff in Hr. destruct Hr as [H1 H2].
    rewrite m_alt. destruct (m r1 i s c k) as [[e0 c0]|] eqn:E.
    + intros H; inversion H; subst. eapply (IH1 H1 k Hk); eauto.
    + apply (IH2 H2 k Hk); exact Hc.
  - cbn [m]. apply star_loop_safe; auto.
  - apply andb_true_iff in Hr. destruct Hr as [H1 H2].
    apply negb_true_iff in H1.
    rewrite m_group. eapply (IH H2); [|exact Hc].
    intros i' s' c'' Hc''. apply Hk. cbn [cap]. rewrite H1. exact Hc''.
  - cbn [m]. destruct (i =? 0); [apply Hk; exact Hc | discriminate].
Qed.

End Safe.

Let alert_alts : re :=
  alts (lit "NOTE") [lit "TIP"; lit "IMPORTANT"; lit "WARNING"; lit "CAUTION"].

(** The pattern behind its first group. *)
Let alert_tail : re :=
  seq [ lit "]"; Star true (Chr is_space); Group 2 (Star false dot);
        lit "</p>"; Group 3 (Star true any) ].

Lemma alert_re_parts :
  alert_re = Cat Bol (Cat (lit "<p>[!") (Cat (Group 1 alert_alts) alert_tail)).
Proof. reflexivity. Qed.

Lemma firstn_prefix (w z : str) i : firstn (i + length w - i) (w ++ z) = w.
Proof.
  replace (i + length w - i) with (length w + 0) by lia.
  rewrite firstn_app_2. cbn [firstn]. apply app_nil_r.
Qed.

(** The alternation takes the token the text has. *)
Lemma alert_alts_token (R : Type) tok z i c (k : cont R) :
  In tok alert_tokens ->
  k (i + length (L tok)) z c <> None ->
  m alert_alts i (L tok ++ z) c k = k (i + length (L tok)) z c.
Proof.
  intros Hin Hk. unfold alert_alts, alts. cbn [fold_left]. rewrite !m_alt.
  unfold alert_tokens in Hin. cbn [In] in Hin.
  destruct Hin as [<-|[<-|[<-|[<-|[<-|[]]]]]];
    repeat match goal with
      | |- context [m (lit ?x) i (L ?x ++ z) c k] =>
          unfold lit at 1; rewrite (m_lit_app (L x) z i c k)
      | |- context [m (lit ?x) i (L ?y ++ z) c k] =>
          change (m (lit x) i (L y ++ z) c k) with (@None R)
      end;
    destruct (k _ z c); congruence.
Qed.

Lemma alert_tail_success i c trailing rest :
  Forall (fun a => is_line_terminator a = false) trailing ->
  m alert_tail i (L "]" ++ trailing ++ L "</p>" ++ rest) c accept <> None.
Proof.
  intros Ht. unfold alert_tail. cbn [seq fold_right].
  rewrite m_cat. unfold lit at 1. rewrite m_lit_app.
  rewrite m_cat, m_star. apply star_greedy_success.
  rewrite m_cat, m_group. unfold dot. rewrite m_star.
  apply star_lazy_success.
  - eapply Forall_impl; [|exact Ht]. cbn. intros a Ha. now rewrite Ha.
  - apply le_n.
  - rewrite m_cat. unfold lit at 1. rewrite m_lit_app.
    rewrite m_cat, m_group, m_star. apply star_greedy_success.
    rewrite m_eps. discriminate.
Qed.

Lemma alert_tail_keeps_group1 i s c e c' :
  m alert_tail i s c accept = Some (e, c') -> cap 1 c' = cap 1 c.
Proof.
  intros H.
  refine (@m_safe 1 (cap 1 c) alert_tail eq_refl accept _ i s c eq_refl e c' H).
  intros i0 s0 c0 Hc0 e0 c1 Ha. inversion Ha; subst. exact Hc0.
Qed.

(** The pattern matches a text that opens with [<p>[!TOKEN]], goes on
    on the same line and closes the paragraph; the first group is the
    token. *)
Lemma alert_re_match tok trailing rest :
  In tok alert_tokens ->
  Forall (fun a => is_line_terminator a = false) trailing ->
  exists e c,
    exec alert_re (L "<p>[!" ++ L tok ++ L "]" ++ trailing ++ L "</p>" ++ rest)
    = Some (0, e, c) /\ cap 1 c = Some (L tok).
Proof.
  intros Hin Ht.
  pose proof (alert_tail_success (0 + length (L "<p>[!") + length (L tok))
                [(1, L tok)] rest Ht) as Hs.
  destruct (m alert_tail _ _ [(1, L tok)] accept) as [[e c]|] eqn:E;
    [clear Hs | congruence].
  exists e, c. split.
  - apply exec_from_match. unfold match_at. rewrite alert_re_parts.
    rewrite m_cat, m_bol. cbn [Nat.eqb].
    rewrite m_cat. unfold lit at 1. rewrite m_lit_app.
    rewrite m_cat, m_group, alert_alts_token; rewrite ?firstn_prefix; auto.
    rewrite E. discriminate.
  - apply alert_tail_keeps_group1 in E. rewrite E. reflexivity.
Qed.

End Alerts.

(** ** Literals *)

Section LiteralFacts.
Import Regex.

(** A literal matches where the input starts with it. *)
Lemma m_lit_at (R : Type) w i s c (k : cont R) :
  m (seq (map chr w)) i s c k
  = if starts_with w s then k (i + length w) (skipn (length w) s) c else None.
Proof.
  revert i s. induction w as [|a w IH]; intros i s.
  - cbn [map seq fold_right starts_with length skipn]. rewrite m_eps.
    f_equal. lia.
  - cbn [map seq fold_right length]. rewrite m_cat.
    unfold chr at 1. rewrite m_chr.
    destruct s as [|b t]; [reflexivity|].
    cbn [starts_with skipn]. destruct (Ascii.eqb a b); [|reflexivity].
    cbn [andb]. fold (seq (map chr w)). rewrite IH.
    destruct (starts_with w t); [|reflexivity]. f_equal. lia.
Qed.

Lemma match_at_seq_chr w q s :
  match_at (seq (map chr w)) q s
  = if starts_with w s then Some (q + length w, []) else None.
Proof. unfold match_at. rewrite m_lit_at. reflexivity. Qed.

Section Literal.
(** A pattern [c0 :: w] and a replacement [r0 :: rs] that holds no [c0]
    and whose first character is not in the pattern. *)
Variables (c0 r0 : ascii) (w rs : str).
Hypothesis repl_c0 : Forall (fun a => Ascii.eqb c0 a = false) (r0 :: rs).
Hypothesis w_r0 : Forall (fun a => Ascii.eqb a r0 = false) w.

Let pat : str := c0 :: w.
Let repl : str := r0 :: rs.
Let re_pat : re := seq (map chr pat).

Lemma contains_behind_repl (u x : str) :
  Forall (fun a => Ascii.eqb c0 a = false) u ->
  contains pat (u ++ x) = contains pat x.
Proof.
  induction 1 as [|a u Ha Hu IH]; [reflexivity|].
  cbn [app contains]. rewrite IH. unfold pat at 1. cbn [starts_with].
  rewrite Ha. reflexivity.
Qed.

(** What the output starts with, when it holds no character of the
    replacement, was copied from the input. *)
Lemma starts_with_copied v :
  Forall (fun a => Ascii.eqb a r0 = false) v ->
  forall s q,
    starts_with v (replace_scan re_pat repl q s 0) = true ->
    starts_with v s = true.
Proof.
  induction 1 as [|a v Ha Hv IH]; intros s q H; [reflexivity|].
  destruct s as [|b t].
  - cbn [replace_scan] in H. unfold re_pat in H.
    rewrite match_at_seq_chr in H. unfold pat in H. cbn [starts_with] in H.
    cbn [starts_with] in H. discriminate.
  - cbn [replace_scan] in H. unfold re_pat in H.
    rewrite match_at_seq_chr in H. fold re_pat in H.
    destruct (starts_with pat (b :: t)).
    + replace (q + length pat =? q) with false in H
        by (symmetry; apply Nat.eqb_neq; unfold pat; cbn [length]; lia).
      unfold repl in H. cbn [app starts_with] in H. rewrite Ha in H.
      discriminate.
    + cbn [starts_with] in H |- *. apply andb_true_iff in H.
      destruct H as [Hab Hrest]. rewrite Hab. cbn [andb].
      eapply IH; eassumption.
Qed.

(** No occurrence of the pattern is left in the output. *)
Lemma replace_scan_leaves_none s :
  forall q n, contains pat (replace_scan re_pat repl q s n) = false.
Proof.
  induction s as [|a t IH]; intros q n.
  - destruct n; cbn [replace_scan]; [|reflexivity].
    unfold re_pat. rewrite match_at_seq_chr. reflexivity.
  - destruct n as [|n]; cbn [replace_scan]; [|apply IH].
    unfold re_pat. rewrite match_at_seq_chr. fold re_pat.
    destruct (starts_with pat (a :: t)) eqn:Hs.
    + replace (q + length pat =? q) with false
        by (symmetry; apply Nat.eqb_neq; unfold pat; cbn [length]; lia).
      unfold repl at 1. rewrite (contains_behind_repl _ repl_c0). apply IH.
    + cbn [contains]. rewrite IH, orb_false_r.
      destruct (starts_with pat (a :: replace_scan re_pat repl (S q) t 0))
        eqn:Ho; [|reflexivity].
      unfold pat in Ho, Hs. cbn [starts_with] in Ho, Hs.
      apply andb_true_iff in Ho. destruct Ho as [Ha Ho].
      rewrite Ha in Hs. cbn [andb] in Hs.
      apply (starts_with_copied w_r0) in Ho. congruence.
Qed.

End Literal.

Lemma starts_with_app w y : starts_with w (w ++ y) = true.
Proof.
  induction w as [|a w IH]; [reflexivity|].
  cbn [app starts_with]. now rewrite Ascii.eqb_refl, IH.
Qed.

Lemma skipn_length_app (w y : str) : skipn (length w) (w ++ y) = y.
Proof. induction w as [|a w IH]; [reflexivity | exact IH]. Qed.

(** Only the first characters of a text, as many as the pattern has,
    decide whether it starts with the pattern. *)
Lemma starts_with_long w :
  forall u y, length w <= length u ->
              starts_with w (u ++ y) = starts_with w u.
Proof.
  induction w as [|a w IH]; intros u y H; [reflexivity|].
  destruct u as [|b u]; cbn [length] in H; [lia|].
  cbn [app starts_with]. rewrite IH by lia. reflexivity.
Qed.

Lemma removelast_length (w : str) : w <> [] -> length w = S (length (removelast w)).
Proof.
  intros H. rewrite (app_removelast_last "$"%char H) at 1.
  rewrite length_app. cbn [length]. lia.
Qed.

End LiteralFacts.

(** ** The texts that are alerts *)

Section AlertShapes.
Import Regex JsString Build.

Lemma starts_with_split w :
  forall s, starts_with w s = true -> s = w ++ skipn (length w) s.
Proof.
  induction w as [|a w IH]; intros s H; [reflexivity|].
  destruct s as [|b s]; [discriminate|]. cbn [starts_with] in H.
  apply andb_true_iff in H. destruct H as [Hab Hs].
  apply Ascii.eqb_eq in Hab. subst b. cbn [length skipn app].
  f_equal. now apply IH.
Qed.

(** A repetition succeeds through its continuation, at once or behind
    one more iteration. *)
Lemma star_loop_cases (R : Type) step g (k : cont R) n i s c x :
  star_loop step g k n i s c = Some x ->
  k i s c = Some x \/
  exists n', n = S n' /\
    step i s c (fun i' s' c' =>
      if i <? i' then star_loop step g k n' i' s' c' else None) = Some x.
Proof.
  destruct n as [|n]; cbn [star_loop]; destruct g.
  - auto.
  - destruct (k i s c); [auto | discriminate].
  - match goal with |- match ?o with _ => _ end = _ -> _ =>
      destruct o eqn:E end; [|auto].
    intros H. right. exists n. split; [reflexivity|]. congruence.
  - destruct (k i s c); [auto|]. intros H. right. eauto.
Qed.

(** What a repetition of a class has taken when it succeeds. *)
Lemma star_loop_class_inv (R : Type) p g (k : cont R) x :
  forall n i s c,
    star_loop (m (Chr p)) g k n i s c = Some x ->
    exists u z, s = u ++ z /\ Forall (fun a => p a = true) u
                /\ k (i + length u) z c = Some x.
Proof.
  induction n as [|n IH]; intros i s c H;
    apply star_loop_cases in H; destruct H as [H|[n' [Hn H]]].
  - exists [], s. rewrite Nat.add_0_r. auto.
  - discriminate.
  - exists [], s. rewrite Nat.add_0_r. auto.
  - inversion Hn; subst n'. rewrite m_chr in H.
    destruct s as [|a t]; [discriminate|].
    destruct (p a) eqn:Hp; [|discriminate].
    replace (i <? S i) with true in H by (symmetry; apply Nat.ltb_lt; lia).
    destruct (IH _ _ _ H) as [u [z [-> [Hu Hk]]]].
    exists (a :: u), z. split; [reflexivity|]. split; [now constructor|].
    cbn [length]. now rewrite Nat.add_succ_r.
Qed.

(** A greedy repetition of a class succeeds when the continuation
    accepts behind a run of the class. *)
Lemma star_greedy_run (R : Type) p (k : cont R) u z :
  Forall (fun a => p a = true) u ->
  forall n i c,
    length (u ++ z) <= n ->
    k (i + length u) z c <> None ->
    star_loop (m (Chr p)) true k n i (u ++ z) c <> None.
Proof.
  induction 1 as [|a u Ha Hu IH]; intros n i c Hn Hk.
  - cbn [app length] in *. rewrite Nat.add_0_r in Hk.
    now apply star_greedy_success.
  - cbn [app length] in *. destruct n as [|n]; [lia|].
    cbn [star_loop]. rewrite m_chr, Ha.
    replace (i <? S i) with true by (symmetry; apply Nat.ltb_lt; lia).
    assert (H : star_loop (m (Chr p)) true k n (S i) (u ++ z) c <> None).
    { apply IH; [lia|]. now rewrite Nat.add_succ_r in Hk. }
    destruct (star_loop (m (Chr p)) true k n (S i) (u ++ z) c);
      [discriminate | congruence].
Qed.

Let alert_alts : re :=
  alts (lit "NOTE") [lit "TIP"; lit "IMPORTANT"; lit "WARNING"; lit "CAUTION"].

Let alert_tail : re :=
  seq [ lit "]"; Star true (Chr is_space); Group 2 (Star false dot);
        lit "</p>"; Group 3 (Star true any) ].

Lemma or_else_cases (R : Type) (o o' : option R) x :
  match o with Some y => Some y | None => o' end = Some x ->
  o = Some x \/ o' = Some x.
Proof. destruct o; auto. Qed.

Lemma lit_token_inv (R : Type) tok i s c (k : cont R) x :
  In tok alert_tokens ->
  m (lit tok) i s c k = Some x ->
  exists tok, In tok alert_tokens
              /\ starts_with (L tok) s = true
              /\ k (i + length (L tok)) (skipn (length (L tok)) s) c = Some x.
Proof.
  intros Hin H. unfold lit in H. rewrite m_lit_at in H.
  destruct (starts_with (L tok) s) eqn:E; [|discriminate]. eauto.
Qed.

Lemma alert_alts_inv (R : Type) i s c (k : cont R) x :
  m alert_alts i s c k = Some x ->
  exists tok, In tok alert_tokens
              /\ starts_with (L tok) s = true
              /\ k (i + length (L tok)) (skipn (length (L tok)) s) c = Some x.
Proof.
  unfold alert_alts, alts. cbn [fold_left]. rewrite !m_alt. intros H.
  repeat (apply or_else_cases in H; destruct H as [H|H]);
    (eapply lit_token_inv; [|exact H]); unfold alert_tokens; cbn [In]; tauto.
Qed.

Lemma alert_tail_inv i s c x :
  m alert_tail i s c accept = Some x ->
  exists ws line rest,
    Forall (fun a => is_space a = true) ws
    /\ Forall (fun a => is_line_terminator a = false) line
    /\ s = L "]" ++ ws ++ line ++ L "</p>" ++ rest.
Proof.
  unfold alert_tail. cbn [seq fold_right]. intros H.
  rewrite m_cat in H. unfold lit at 1 in H. rewrite m_lit_at in H.
  destruct (starts_with (L "]") s) eqn:E1; [|discriminate].
  apply starts_with_split in E1. rewrite E1.
  rewrite m_cat, m_star in H. apply star_loop_class_inv in H.
  destruct H as [ws [s2 [-> [Hws H]]]].
  rewrite m_cat, m_group in H. unfold dot in H. rewrite m_star in H.
  apply star_loop_class_inv in H.
  destruct H as [line [s3 [-> [Hline H]]]].
  rewrite m_cat in H. unfold lit at 1 in H. rewrite m_lit_at in H.
  destruct (starts_with (L "</p>") s3) eqn:E2; [|discriminate].
  apply starts_with_split in E2.
  exists ws, line, (skipn (length (L "</p>")) s3).
  split; [exact Hws|]. split.
  - eapply Forall_impl; [|exact Hline]. cbn. intros a Ha.
    now apply negb_true_iff in Ha.
  - now rewrite <- E2.
Qed.

Lemma alert_re_unfold :
  alert_re = Cat Bol (Cat (lit "<p>[!") (Cat (Group 1 alert_alts) alert_tail)).
Proof. reflexivity. Qed.

(** The pattern is anchored: it matches at the start of the text or
    nowhere. *)
Lemma exec_from_alert_later s :
  forall i, exec_from alert_re (S i) s = None.
Proof.
  induction s as [|a t IH]; intros i; cbn [exec_from]; unfold match_at;
    rewrite alert_re_unfold, m_cat, m_bol; cbn [Nat.eqb]; [reflexivity|].
  apply IH.
Qed.

Lemma exec_alert_inv content b e c :
  exec alert_re content = Some (b, e, c) ->
  match_at alert_re 0 content = Some (e, c).
Proof.
  unfold exec. destruct content as [|a t]; cbn [exec_from].
  - destruct (match_at alert_re 0 []) as [[e0 c0]|]; [|discriminate].
    intros H. inversion H. reflexivity.
  - destruct (match_at alert_re 0 (a :: t)) as [[e0 c0]|].
    + intros H. inversion H. reflexivity.
    + now rewrite exec_from_alert_later.
Qed.

Lemma alert_match_inv content e c :
  match_at alert_re 0 content = Some (e, c) ->
  exists tok ws line rest,
    In tok alert_tokens
    /\ Forall (fun a => is_space a = true) ws
    /\ Forall (fun a => is_line_terminator a = false) line
    /\ content = L "<p>[!" ++ L tok ++ L "]" ++ ws ++ line ++ L "</p>" ++ rest
    /\ cap 1 c = Some (L tok).
Proof.
  unfold match_at. rewrite alert_re_unfold, m_cat, m_bol. cbn [Nat.eqb].
  rewrite m_cat. unfold lit at 1. rewrite m_lit_at.
  destruct (starts_with (L "<p>[!") content) eqn:E0; [|discriminate].
  apply starts_with_split in E0.
  remember (skipn (length (L "<p>[!")) content) as s1 eqn:Es1.
  rewrite m_cat, m_group. intros H. apply alert_alts_inv in H.
  destruct H as [tok [Hin [Et H]]]. cbv beta in H.
  apply starts_with_split in Et.
  assert (G : firstn (0 + length (L "<p>[!") + length (L tok)
                      - (0 + length (L "<p>[!"))) s1 = L tok).
  { rewrite Et at 1. apply firstn_prefix. }
  rewrite G in H.
  destruct (alert_tail_inv _ _ _ H) as [ws [line [rest [Hws [Hline Hs]]]]].
  apply alert_tail_keeps_group1 in H.
  exists tok, ws, line, rest.
  split; [exact Hin|]. split; [exact Hws|]. split; [exact Hline|]. split.
  - rewrite E0, Et, Hs. reflexivity.
  - rewrite H. reflexivity.
Qed.

Lemma alert_tail_success_ws i c ws line rest :
  Forall (fun a => is_space a = true) ws ->
  Forall (fun a => is_line_terminator a = false) line ->
  m alert_tail i (L "]" ++ ws ++ line ++ L "</p>" ++ rest) c accept <> None.
Proof.
  intros Hws Hline. unfold alert_tail. cbn [seq fold_right].
  rewrite m_cat. unfold lit at 1. rewrite m_lit_app.
  rewrite m_cat, m_star. apply star_greedy_run; [exact Hws | apply le_n |].
  rewrite m_cat, m_group. unfold dot. rewrite m_star.
  apply star_lazy_success.
  - eapply Forall_impl; [|exact Hline]. cbn. intros a Ha. now rewrite Ha.
  - rewrite length_app. lia.
  - rewrite m_cat. unfold lit at 1. rewrite m_lit_app.
    rewrite m_cat, m_group, m_star. apply star_greedy_success.
    rewrite m_eps. discriminate.
Qed.

Lemma alert_match_shape tok ws line rest :
  In tok alert_tokens ->
  Forall (fun a => is_space a = true) ws ->
  Forall (fun a => is_line_terminator a = false) line ->
  exists e c,
    exec alert_re
      (L "<p>[!" ++ L tok ++ L "]" ++ ws ++ line ++ L "</p>" ++ rest)
    = Some (0, e, c) /\ cap 1 c = Some (L tok).
Proof.
  intros Hin Hws Hline.
  pose proof (@alert_tail_success_ws
                (0 + length (L "<p>[!") + length (L tok))
                [(1, L tok)] ws line rest Hws Hline) as Hs.
  destruct (m alert_tail _ _ [(1, L tok)] accept) as [[e c]|] eqn:E;
    [clear Hs | congruence].
  exists e, c. split.
  - apply exec_from_match. unfold match_at.
    rewrite alert_re_unfold, m_cat, m_bol. cbn [Nat.eqb].
    rewrite m_cat. unfold lit at 1. rewrite m_lit_app.
    rewrite m_cat, m_group.
    rewrite (alert_alts_token _ _ _ _ Hin); rewrite ?firstn_prefix; auto.
    rewrite E. discriminate.
  - apply alert_tail_keeps_group1 in E. rewrite E. reflexivity.
Qed.

Lemma take_while_run p (u z : str) a :
  Forall (fun b => p b = true) u -> p a = false ->
  take_while p (u ++ a :: z) = u /\ drop_while p (u ++ a :: z) = a :: z.
Proof.
  intros Hu Ha. induction Hu as [|b u Hb Hu IH];
    cbn [app take_while drop_while].
  - rewrite Ha. auto.
  - rewrite Hb. destruct IH as [-> ->]. auto.
Qed.

(** A lazy repetition goes on while the continuation refuses the next
    character. *)
Lemma star_lazy_until (R : Type) p (k : cont R) x z :
  Forall (fun a => p a = true /\ forall i t c, k i (a :: t) c = None) x ->
  forall n i c,
    length (x ++ z) <= n ->
    k (i + length x) z c <> None ->
    star_loop (m (Chr p)) false k n i (x ++ z) c = k (i + length x) z c.
Proof.
  induction 1 as [|a x [Ha Hk] Hx IH]; intros n i c Hn Hz.
  - cbn [app length] in *. rewrite Nat.add_0_r in *.
    destruct n; cbn [star_loop]; destruct (k i z c); congruence.
  - cbn [app length] in *. destruct n as [|n]; [lia|].
    cbn [star_loop]. rewrite Hk, m_chr, Ha.
    replace (i <? S i) with true by (symmetry; apply Nat.ltb_lt; lia).
    rewrite Nat.add_succ_r in *. apply IH; [lia | exact Hz].
Qed.

Lemma first_line_match x ws rest :
  Forall (fun a => is_line_terminator a = false /\ Ascii.eqb "]" a = false) x ->
  Forall (fun a => is_space a = true) ws ->
  match_at first_line_re 0
    (L "<p>[!" ++ x ++ L "]" ++ ws ++ L "</p>" ++ rest)
  = Some (length (L "<p>[!" ++ x ++ L "]" ++ ws ++ L "</p>"), []).
Proof.
  intros Hx Hws. unfold match_at, first_line_re. cbn [seq fold_right].
  rewrite m_cat, m_bol. cbn [Nat.eqb].
  rewrite m_cat. unfold lit at 1. rewrite m_lit_app.
  rewrite m_cat. unfold dot. rewrite m_star.
  assert (K : m (Cat (lit "]")
                   (Cat (Star true (Chr is_space)) (Cat (lit "</p>") Eps)))
                (0 + length (L "<p>[!") + length x)
                (L "]" ++ ws ++ L "</p>" ++ rest) [] accept
              = Some (length (L "<p>[!" ++ x ++ L "]" ++ ws ++ L "</p>"), [])).
  { rewrite m_cat. unfold lit at 1. rewrite m_lit_app.
    rewrite m_cat.
    destruct (@take_while_run is_space ws (L "/p>" ++ rest) "<"%char Hws
                eq_refl) as [Etw Edw].
    change (L "</p>" ++ rest) with ("<"%char :: L "/p>" ++ rest).
    rewrite star_class; rewrite Etw, Edw; cbv beta;
      change ("<"%char :: L "/p>" ++ rest) with (L "</p>" ++ rest);
      rewrite m_cat; unfold lit at 1; rewrite m_lit_app, m_eps;
      unfold accept; [|discriminate].
    f_equal. f_equal. rewrite !length_app. lia. }
  rewrite star_lazy_until.
  - exact K.
  - eapply Forall_impl; [|exact Hx]. cbv beta. intros a [Ha Hb]. split.
    + now rewrite Ha.
    + intros i t c. rewrite m_cat. unfold lit at 1. rewrite m_lit_at.
      change (L "]") with ["]"%char]. cbn [starts_with]. now rewrite Hb.
  - apply le_n.
  - rewrite K. discriminate.
Qed.

Lemma token_plain tok :
  In tok alert_tokens ->
  Forall (fun a => is_line_terminator a = false /\ Ascii.eqb "]" a = false)
    (L tok).
Proof.
  unfold alert_tokens. cbn [In].
  intros [<-|[<-|[<-|[<-|[<-|[]]]]]]; repeat (constructor; [split; reflexivity|]);
    constructor.
Qed.

End AlertShapes.

(** ** The table of contents *)

Section Toc.
Import JsString Build.

Lemma render_node_blockquote conv text inner toc :
  render_node conv (NodeBlockquote text inner) toc
  = match conv with
    | Tokens => (blockquote (BlockquoteToken (Some text)), toc)
    | Positional =>
        let (html, toc') := render_nodes conv inner toc in
        (blockquote (BlockquoteString html), toc')
    end.
Proof. destruct conv; reflexivity. Qed.

Lemma render_node_other conv wrap inner toc :
  render_node conv (NodeOther wrap inner) toc
  = let (html, toc') := render_nodes conv inner toc in (wrap html, toc').
Proof. reflexivity. Qed.

Lemma or_str_text r t : or_str r (or_str (Some t) []) = or_str r t.
Proof. destruct t; reflexivity. Qed.

Lemma heading_call_level conv h :
  headerLevel (heading_call conv h) = Zpos (tk_depth h).
Proof. destruct conv; reflexivity. Qed.

Lemma heading_call_text conv h :
  headerText (heading_call conv h) = text (Spec.toc_entry_of conv h).
Proof. destruct conv; cbn; [destruct (tk_text h)|]; reflexivity. Qed.

Lemma heading_call_anchor conv h :
  heading_anchor (heading_call conv h) = anchor (Spec.toc_entry_of conv h).
Proof.
  unfold heading_anchor. rewrite or_str_text, slugify_spec.
  destruct conv; cbn [heading_call headerRaw headerText Spec.toc_entry_of anchor].
  - destruct (tk_raw h), (tk_text h); reflexivity.
  - destruct (tk_plain h), (tk_html h); reflexivity.
Qed.

(** What [renderer.heading] does with the heading of a document. *)
Lemma heading_entry conv h toc :
  heading (heading_call conv h) toc
  = (heading_html (heading_call conv h),
     if (tk_depth h <=? 3)%positive
     then toc ++ [Spec.toc_entry_of conv h] else toc).
Proof.
  unfold heading. rewrite heading_call_level.
  change (Zpos (tk_depth h) <=? 3)%Z with (tk_depth h <=? 3)%positive.
  destruct (tk_depth h <=? 3)%positive; [|reflexivity].
  rewrite heading_call_anchor, heading_call_text.
  destruct conv; reflexivity.
Qed.

(** The entries that the headings [hs] add. *)
Let entries conv (hs : list heading_token) : list toc_entry :=
  map (Spec.toc_entry_of conv)
    (filter (fun h => (tk_depth h <=? 3)%positive) hs).

Lemma entries_app conv hs hs' :
  entries conv (hs ++ hs') = entries conv hs ++ entries conv hs'.
Proof. unfold entries. now rewrite filter_app, map_app. Qed.

Lemma render_nodes_toc_from conv ns :
  Forall (fun n => forall toc,
            snd (render_node conv n toc)
            = toc ++ entries conv (Spec.headings (Spec.rendered conv) n)) ns ->
  forall toc,
    snd (render_nodes conv ns toc)
    = toc ++ entries conv (flat_map (Spec.headings (Spec.rendered conv)) ns).
Proof.
  induction 1 as [|n ns Hn Hns IH]; intros toc.
  - cbn. now rewrite app_nil_r.
  - cbn [render_nodes]. specialize (Hn toc).
    destruct (render_node conv n toc) as [html toc1].
    specialize (IH toc1).
    destruct (render_nodes conv ns toc1) as [html' toc2].
    cbn [snd] in *. subst.
    cbn [flat_map]. now rewrite entries_app, app_assoc.
Qed.

Lemma render_node_toc conv :
  forall n toc,
    snd (render_node conv n toc)
    = toc ++ entries conv (Spec.headings (Spec.rendered conv) n).
Proof.
  destruct conv; fix IH 1; intros n;
    match goal with
    | |- forall toc, snd (render_node ?c _ _) = _ =>
        assert (A : forall ns,
                   Forall (fun n => forall toc,
                             snd (render_node c n toc)
                             = toc ++ entries c
                                        (Spec.headings (Spec.rendered c) n))
                     ns)
          by (induction ns as [|n' ns IHns]; constructor;
              [apply IH | exact IHns])
    end;
    destruct n as [h|text inner|wrap inner]; intros toc.
  - cbn [render_node]. rewrite heading_entry.
    cbn [snd Spec.headings]. unfold entries. cbn [filter].
    destruct (tk_depth h <=? 3)%positive;
      [reflexivity | now rewrite app_nil_r].
  - cbn. now rewrite app_nil_r.
  - rewrite render_node_other.
    pose proof (@render_nodes_toc_from _ inner (A inner) toc) as H.
    destruct (render_nodes Tokens inner toc); exact H.
  - cbn [render_node]. rewrite heading_entry.
    cbn [snd Spec.headings]. unfold entries. cbn [filter].
    destruct (tk_depth h <=? 3)%positive;
      [reflexivity | now rewrite app_nil_r].
  - rewrite render_node_blockquote.
    pose proof (@render_nodes_toc_from _ inner (A inner) toc) as H.
    destruct (render_nodes Positional inner toc); exact H.
  - rewrite render_node_other.
    pose proof (@render_nodes_toc_from _ inner (A inner) toc) as H.
    destruct (render_nodes Positional inner toc); exact H.
Qed.

(** The table of contents after a document: the entries of its
    headings of depth 3 at most that are rendered, in document order. *)
Lemma render_nodes_toc conv ns toc :
  snd (render_nodes conv ns toc)
  = toc ++ map (Spec.toc_entry_of conv)
             (filter (fun h => (tk_depth h <=? 3)%positive)
                (flat_map (Spec.headings (Spec.rendered conv)) ns)).
Proof.
  apply render_nodes_toc_from. apply Forall_forall. intros n _.
  apply render_node_toc.
Qed.

Lemma render_nodes_html_from conv ns :
  Forall (fun n => forall toc toc',
            fst (render_node conv n toc) = fst (render_node conv n toc')) ns ->
  forall toc toc',
    fst (render_nodes conv ns toc) = fst (render_nodes conv ns toc').
Proof.
  induction 1 as [|n ns Hn Hns IH]; intros toc toc'; [reflexivity|].
  cbn [render_nodes]. specialize (Hn toc toc').
  destruct (render_node conv n toc) as [h t1],
    (render_node conv n toc') as [h' t1'].
  specialize (IH t1 t1').
  destruct (render_nodes conv ns t1) as [g t2],
    (render_nodes conv ns t1') as [g' t2'].
  cbn [fst] in *. congruence.
Qed.

Lemma render_node_html conv :
  forall n toc toc',
    fst (render_node conv n toc) = fst (render_node conv n toc').
Proof.
  destruct conv; fix IH 1; intros n;
    match goal with
    | |- forall toc toc', fst (render_node ?c _ _) = _ =>
        assert (A : forall ns,
                   Forall (fun n => forall toc toc',
                             fst (render_node c n toc)
                             = fst (render_node c n toc')) ns)
          by (induction ns as [|n' ns IHns]; constructor;
              [apply IH | exact IHns])
    end;
    destruct n as [h|text inner|wrap inner]; intros toc toc'.
  - reflexivity.
  - reflexivity.
  - rewrite !render_node_other.
    pose proof (@render_nodes_html_from _ inner (A inner) toc toc') as H.
    destruct (render_nodes Tokens inner toc), (render_nodes Tokens inner toc').
    cbn [fst] in *. now subst.
  - reflexivity.
  - rewrite !render_node_blockquote.
    pose proof (@render_nodes_html_from _ inner (A inner) toc toc') as H.
    destruct (render_nodes Positional inner toc),
      (render_nodes Positional inner toc').
    cbn [fst] in *. now subst.
  - rewrite !render_node_other.
    pose proof (@render_nodes_html_from _ inner (A inner) toc toc') as H.
    destruct (render_nodes Positional inner toc),
      (render_nodes Positional inner toc').
    cbn [fst] in *. now subst.
Qed.

End Toc.

(** ** Related posts *)

Section RelatedFacts.
Import JsString JsArray Build.

Lemma filter_map_comm (A B : Type) (f : B -> bool) (g : A -> B) l :
  filter f (map g l) = map g (filter (fun x => f (g x)) l).
Proof.
  induction l as [|x l IH]; [reflexivity|]. cbn [map filter].
  destruct (f (g x)); cbn [map]; now rewrite IH.
Qed.

Lemma firstn_incl (A : Type) n (l : list A) x : In x (firstn n l) -> In x l.
Proof.
  intros H. rewrite <- (firstn_skipn n l). apply in_or_app. now left.
Qed.

Lemma map_flat_map (A B C : Type) (f : B -> C) (g : A -> list B) l :
  map f (flat_map g l) = flat_map (fun a => map f (g a)) l.
Proof.
  induction l as [|a l IH]; [reflexivity|].
  cbn [flat_map]. now rewrite map_app, IH.
Qed.

Lemma flat_map_ext_in (A B : Type) (f g : A -> list B) l :
  (forall a, In a l -> f a = g a) -> flat_map f l = flat_map g l.
Proof.
  induction l as [|a l IH]; intros H; [reflexivity|].
  cbn [flat_map]. rewrite (H a) by now left.
  f_equal. apply IH. intros b Hb. apply H. now right.
Qed.

Lemma filter_filter_sub (A : Type) (P Q : A -> bool) l :
  (forall x, P x = true -> Q x = true) ->
  filter P (filter Q l) = filter P l.
Proof.
  intros H. induction l as [|x l IH]; [reflexivity|]. cbn [filter].
  destruct (Q x) eqn:Qx; cbn [filter]; rewrite IH; [reflexivity|].
  destruct (P x) eqn:Px; [|reflexivity].
  apply H in Px. congruence.
Qed.

Lemma Forall2_in_second (A B : Type) (R : A -> B -> Prop) l r b :
  Forall2 R l r -> In b r -> exists a, In a l /\ R a b.
Proof.
  induction 1 as [|a b' l r Hab Hlr IH]; intros Hb; [contradiction|].
  destruct Hb as [<-|Hb].
  - exists a. split; [now left | exact Hab].
  - destruct (IH Hb) as [a' [Ha' Hr]]. exists a'. split; [now right | exact Hr].
Qed.

Lemma map_throwing_ok (E A B : Type) (f : A -> E + B) (g : A -> B) l :
  (forall a, In a l -> f a = inr (g a)) ->
  map_throwing f l = inr (map g l).
Proof.
  induction l as [|a l IH]; intros H; [reflexivity|].
  cbn [map_throwing map]. rewrite (H a) by now left. cbn [bind].
  rewrite IH; [reflexivity|]. intros b Hb. apply H. now right.
Qed.

Lemma map_throwing_inv (E A B : Type) (f : A -> E + B) l :
  forall r, map_throwing f l = inr r -> Forall2 (fun a b => f a = inr b) l r.
Proof.
  induction l as [|a l IH]; intros r H; cbn [map_throwing] in H.
  - inversion H. constructor.
  - destruct (f a) as [e|b] eqn:Ea; [discriminate|]. cbn [bind] in H.
    destruct (map_throwing f l) as [e|bs]; [discriminate|].
    inversion H; subst. constructor; [exact Ea | now apply IH].
Qed.

Lemma filter_throwing_ok (E A : Type) (f : A -> E + bool) (g : A -> bool) l :
  (forall a, In a l -> f a = inr (g a)) ->
  filter_throwing f l = inr (filter g l).
Proof.
  induction l as [|a l IH]; intros H; [reflexivity|].
  cbn [filter_throwing filter]. rewrite (H a) by now left. cbn [bind].
  rewrite IH; [reflexivity|]. intros b Hb. apply H. now right.
Qed.

Lemma filter_throwing_inv (E A : Type) (f : A -> E + bool) l :
  forall r, filter_throwing f l = inr r ->
            forall a, In a r -> In a l /\ f a = inr true.
Proof.
  induction l as [|x l IH]; intros r H a Ha; cbn [filter_throwing] in H.
  - inversion H; subst. contradiction.
  - destruct (f x) as [e|keep] eqn:Ex; [discriminate|]. cbn [bind] in H.
    destruct (filter_throwing f l) as [e|kept]; [discriminate|].
    cbn [bind] in H. inversion H; subst. destruct keep.
    + destruct Ha as [<-|Ha]; [split; [now left | exact Ex]|].
      destruct (IH kept eq_refl a Ha). split; [now right | assumption].
    + destruct (IH kept eq_refl a Ha). split; [now right | assumption].
Qed.

(** The count of lines 159-162 on two arrays. *)
Lemma score_arrays target p :
  is_array (tags target) = true -> is_array (tags p) = true ->
  score target p
  = inr {| post := p;
           matches := Spec.shared_entries (Spec.tag_list target)
                        (Spec.tag_list p) |}.
Proof.
  unfold score, Spec.tag_list.
  destruct (tags target) as [lt| |]; try discriminate.
  destruct (tags p) as [lp| |]; try discriminate. intros _ _.
  rewrite (filter_throwing_ok (tags_includes (TagsArray lt)) (includes lt))
    by reflexivity.
  cbn [bind]. now rewrite filter_length_shared.
Qed.

Lemma score_inv target p s :
  score target p = inr s ->
  post s = p
  /\ exists lp kept,
       tags p = TagsArray lp
       /\ filter_throwing (tags_includes (tags target)) lp = inr kept
       /\ matches s = length kept.
Proof.
  unfold score. destruct (tags p) as [lp| |]; try discriminate.
  destruct (filter_throwing (tags_includes (tags target)) lp) as [e|kept] eqn:E;
    [discriminate|].
  cbn [bind]. intros H. inversion H; subst. cbn [post matches].
  split; [reflexivity|]. exists lp, kept. auto.
Qed.

Lemma related_inv target corpus l :
  related target corpus = inr l ->
  exists c,
    candidates target corpus = inr c
    /\ ranked target corpus = inr (sort by_matches_desc c)
    /\ l = map post (firstn 3 (sort by_matches_desc c)).
Proof.
  unfold related, ranked.
  destruct (candidates target corpus) as [e|c]; [discriminate|].
  cbn [bind]. intros H. inversion H. eauto.
Qed.

Lemma candidates_inv target corpus c x :
  candidates target corpus = inr c -> In x c ->
  In (post x) corpus
  /\ Spec.other_than target (post x) = true
  /\ score target (post x) = inr x
  /\ 0 < matches x.
Proof.
  unfold candidates.
  destruct (map_throwing (score target)
              (filter (fun p => negb (str_eqb (slug p) (slug target))) corpus))
    as [e|scored] eqn:E; [discriminate|].
  cbn [bind]. intros H Hx. inversion H; subst c; clear H.
  apply filter_In in Hx. destruct Hx as [Hx Hm]. apply Nat.ltb_lt in Hm.
  apply map_throwing_inv in E.
  destruct (@Forall2_in_second _ _ _ _ _ x E Hx) as [p [Hp Hs]].
  destruct (@score_inv _ _ _ Hs) as [Hpost _]. subst p.
  apply filter_In in Hp. destruct Hp as [Hin Ho].
  repeat split; assumption.
Qed.

(** A related post comes from the corpus, has another slug, and holds
    a tag that the tags of the target include. *)
Lemma related_origin target corpus l p :
  related target corpus = inr l -> In p l ->
  In p corpus
  /\ slug p <> slug target
  /\ exists tag, In tag (Spec.tag_list p)
                 /\ tags_includes (tags target) tag = inr true.
Proof.
  intros H Hp. destruct (@related_inv _ _ _ H) as [c [Hc [_ ->]]].
  apply in_map_iff in Hp. destruct Hp as [x [<- Hx]].
  apply firstn_incl in Hx.
  apply (Permutation_in _ (sort_perm matches c)) in Hx.
  destruct (@candidates_inv _ _ _ _ Hc Hx) as [Hin [Ho [Hs Hm]]].
  split; [exact Hin|]. split.
  - intros E. unfold Spec.other_than in Ho. rewrite E in Ho.
    assert (T : str_eqb (slug target) (slug target) = true)
      by now apply str_eqb_eq.
    rewrite T in Ho. discriminate.
  - destruct (@score_inv _ _ _ Hs) as [_ [lp [kept [Hlp [Hk Hlen]]]]].
    destruct kept as [|tag kept]; [cbn in Hlen; lia|].
    destruct (@filter_throwing_inv _ _ _ _ _ Hk tag (or_introl eq_refl)) as [H1 H2].
    exists tag. unfold Spec.tag_list. rewrite Hlp. auto.
Qed.

Lemma related_length target corpus l :
  related target corpus = inr l -> length l <= 3.
Proof.
  intros H. destruct (@related_inv _ _ _ H) as [c [_ [_ ->]]].
  rewrite length_map, length_firstn. lia.
Qed.

(** On arrays the related posts are those of the ranking by shared
    entries. *)
Lemma related_arrays target corpus :
  is_array (tags target) = true ->
  Forall (fun p => is_array (tags p) = true) corpus ->
  related target corpus = inr (Spec.related_ranking target corpus).
Proof.
  intros Ht Hc.
  set (count := fun p => Spec.shared_entries (Spec.tag_list target)
                           (Spec.tag_list p)).
  set (g := fun p => {| post := p; matches := count p |}).
  set (others := filter (Spec.other_than target) corpus).
  assert (S : map_throwing (score target) others = inr (map g others)).
  { apply map_throwing_ok. intros p Hp. apply score_arrays; [exact Ht|].
    apply filter_In in Hp. destruct Hp as [Hp _].
    rewrite Forall_forall in Hc. now apply Hc. }
  unfold related, ranked, candidates.
  change (filter (fun p => negb (str_eqb (slug p) (slug target))) corpus)
    with others.
  rewrite S. cbn [bind]. f_equal.
  unfold Spec.related_ranking. fold count. fold others.
  rewrite <- firstn_map. f_equal.
  rewrite (@sort_levels Scored matches _ (list_max (map count others))).
  - unfold Spec.by_count. rewrite map_flat_map. apply flat_map_ext_in.
    intros k Hk. apply in_rev, in_seq in Hk.
    rewrite !filter_map_comm, map_map. cbn [g post matches].
    rewrite map_id. apply filter_filter_sub.
    intros p Hp. apply Nat.eqb_eq in Hp. apply Nat.ltb_lt. lia.
  - intros x Hx. apply filter_In in Hx. destruct Hx as [Hx Hm].
    apply Nat.ltb_lt in Hm. apply in_map_iff in Hx.
    destruct Hx as [p [<- Hp]]. cbn [g matches] in *. split; [lia|].
    assert (F : Forall (fun k => k <= list_max (map count others))
                  (map count others))
      by (apply list_max_le; lia).
    rewrite Forall_forall in F. apply F. now apply in_map.
Qed.

End RelatedFacts.

(** ** The run *)

Section RunLemmas.
Import Regex JsString JsArray Build.

Variable exn : Type.
Variable TypeError : type_error -> exn.
Variable matter : str -> exn + (metadata * str).
Variable conv : convention.
Variable marked_lexer : str -> list node.
Variable parse_date : option str -> option Z.
Variable engine_order : forall l : list Post, {l' : list Post | Permutation l' l}.
Variable templateHtml : str.
Variable articleHtml : Post -> list Post -> str.
Variable postsListHtml : list Post -> str.

Let is_md (f : str * str) : bool := endsWith (L ".md") (fst f).


Lemma compile_inv file raw p :
  compile matter conv marked_lexer parse_date file raw = inr p ->
  exists data body,
    matter raw = inr (data, body)
    /\ slug p = slug_of_file file
    /\ tags p = or_tags (md_tags data)
    /\ post_title p = md_title data
    /\ readingTime p = getReadingTime body
    /\ (toc p, htmlContent p) = processMarkdown conv marked_lexer body.
Proof.
  unfold compile. destruct (matter raw) as [e|[data body]]; [discriminate|].
  destruct (processMarkdown conv marked_lexer body) as [toc0 html] eqn:Ep.
  intros H. inversion H; subst p; clear H. exists data, body.
  cbn [slug tags post_title readingTime toc htmlContent]. rewrite Ep.
  repeat (split; [reflexivity|]). reflexivity.
Qed.



Lemma compile_all_posts files ps :
  compile_all matter conv marked_lexer parse_date files = inr ps ->
  Forall2 (fun f p => compile matter conv marked_lexer parse_date
                        (fst f) (snd f) = inr p) files ps.
Proof.
  revert ps. induction files as [|[file raw] files IH]; intros ps H;
    cbn [compile_all] in H.
  - inversion H. constructor.
  - destruct (compile matter conv marked_lexer parse_date file raw)
      as [e|p] eqn:Ec; [discriminate|].
    destruct (compile_all matter conv marked_lexer parse_date files) as [e|qs];
      [discriminate|].
    inversion H; subst. constructor; [exact Ec | now apply IH].
Qed.

Lemma compile_post_bounds file raw p :
  compile matter conv marked_lexer parse_date file raw = inr p ->
  1 <= readingTime p /\ Forall (fun e => (level e <= 3)%Z) (toc p).
Proof.
  intros H. destruct (compile_inv _ _ H) as [data [body [_ [_ [_ [_ [Hr Ht]]]]]]].
  split.
  - rewrite Hr. unfold getReadingTime. rewrite split_trim_length.
    apply ceil_div_200_pos. lia.
  - unfold processMarkdown in Ht.
    pose proof (render_nodes_toc conv (marked_lexer body) []) as Hs.
    destruct (render_nodes conv (marked_lexer body) []) as [html toc0].
    cbn [snd app] in Hs. inversion Ht as [[Htoc Hhtml]]. rewrite Htoc, Hs.
    apply Forall_forall. intros entry Hin.
    apply in_map_iff in Hin. destruct Hin as [h [<- Hh]].
    apply filter_In in Hh. destruct Hh as [_ Hh].
    apply Pos.leb_le in Hh. destruct conv; cbn [Spec.toc_entry_of level]; lia.
Qed.

Lemma sort_posts_perm ps : Permutation (sort_posts engine_order ps) ps.
Proof.
  unfold sort_posts. destruct (forallb has_date ps).
  - apply (@sort_permutation Post by_date_desc).
  - exact (proj2_sig (engine_order ps)).
Qed.

(** What is in a page: the placeholder [{{base}}] is in none. *)
Lemma replace_all_no_base rs x :
  Forall (fun a => Ascii.eqb "{" a = false) ("."%char :: rs) ->
  contains (L "{{base}}") (replace_all base_re ("."%char :: rs) x) = false.
Proof.
  intros Hrs. unfold replace_all, base_re, lit.
  change (L "{{base}}") with ("{"%char :: L "{base}}").
  apply replace_scan_leaves_none; [exact Hrs|].
  repeat constructor.
Qed.

Lemma post_page_no_base post rel :
  contains (L "{{base}}") (post_page templateHtml articleHtml post rel) = false.
Proof.
  unfold post_page. apply (@replace_all_no_base ["."%char]).
  repeat constructor.
Qed.

Lemma home_page_no_base posts :
  contains (L "{{base}}") (home_page templateHtml postsListHtml posts) = false.
Proof.
  unfold home_page. apply (@replace_all_no_base []). repeat constructor.
Qed.


Lemma tagsHtml_inv post html :
  tagsHtml post = inr html -> is_array (tags post) = true.
Proof. unfold tagsHtml. destruct (tags post); [reflexivity | discriminate..]. Qed.

Lemma homeTagsHtml_array post :
  is_array (tags post) = true -> exists html, homeTagsHtml post = inr html.
Proof.
  unfold homeTagsHtml. destruct (tags post); try discriminate.
  intros _. cbn [tags_map bind]. eauto.
Qed.

Lemma generate_inv posts post rel page :
  generate templateHtml articleHtml posts post = inr (rel, page) ->
  related post posts = inr rel
  /\ is_array (tags post) = true
  /\ page = (page_path post, Page (post_page templateHtml articleHtml post rel)).
Proof.
  unfold generate. destruct (related post posts) as [e|r]; [discriminate|].
  cbn [bind]. destruct (tagsHtml post) as [e|html] eqn:Et; [discriminate|].
  cbn [bind]. intros H. inversion H; subst. apply tagsHtml_inv in Et. auto.
Qed.



Lemma generate_all_inv posts rest :
  forall pages rels,
    generate_all templateHtml articleHtml posts rest = (pages, inr rels) ->
    Forall2 (fun post page =>
               exists rel, page = (page_path post,
                                   Page (post_page templateHtml articleHtml
                                           post rel))) rest pages
    /\ Forall2 (fun post r => fst r = slug post
                              /\ related post posts = inr (snd r)) rest rels
    /\ Forall (fun p => is_array (tags p) = true) rest.
Proof.
  induction rest as [|post rest IH]; intros pages rels H;
    cbn [generate_all] in H.
  - inversion H. repeat constructor.
  - destruct (generate templateHtml articleHtml posts post)
      as [e|[rel page]] eqn:Eg; [discriminate|].
    destruct (generate_all templateHtml articleHtml posts rest) as [ws r].
    destruct r as [e|rs]; cbn [bind] in H; [discriminate|].
    inversion H; subst. destruct (IH ws rs eq_refl) as [H1 [H2 H3]].
    apply generate_inv in Eg. destruct Eg as [Hr [Ha ->]].
    split; [|split].
    + constructor; [eauto | exact H1].
    + constructor; [split; [reflexivity | exact Hr] | exact H2].
    + constructor; assumption.
Qed.

Lemma generate_all_pages posts rest :
  Forall (fun w => exists post rel,
            w = (page_path post,
                 Page (post_page templateHtml articleHtml post rel)))
    (fst (generate_all templateHtml articleHtml posts rest)).
Proof.
  induction rest as [|post rest IH]; cbn [generate_all]; [constructor|].
  destruct (generate templateHtml articleHtml posts post)
    as [e|[rel page]] eqn:Eg; [constructor|].
  destruct (generate_all templateHtml articleHtml posts rest) as [ws r].
  cbn [fst] in *. apply generate_inv in Eg. destruct Eg as [_ [_ ->]].
  constructor; [eauto | exact IH].
Qed.


Lemma home_arrays posts :
  Forall (fun p => is_array (tags p) = true) posts ->
  home templateHtml postsListHtml posts
  = inr (home_page templateHtml postsListHtml posts).
Proof.
  intros H. unfold home.
  assert (E : exists l, map_throwing homeTagsHtml posts = inr l).
  { induction H as [|p posts Hp Hps [l IH]]; [exists []; reflexivity|].
    destruct (@homeTagsHtml_array p Hp) as [html Eh].
    cbn [map_throwing]. rewrite Eh, IH. cbn [bind]. eauto. }
  destruct E as [l ->]. reflexivity.
Qed.

(** What a fulfilled run has done. *)
Lemma build_fulfilled_inv dir files s :
  build TypeError matter conv marked_lexer parse_date engine_order
    templateHtml
    articleHtml postsListHtml dir = (files, Fulfilled _ s) ->
  exists ps pages,
    compile_all matter conv marked_lexer parse_date (filter is_md dir)
    = inr ps
    /\ posts s = sort_posts engine_order ps
    /\ search_json s = searchIndex (posts s)
    /\ generate_all templateHtml articleHtml (posts s) (posts s)
       = (pages, inr (related_posts s))
    /\ files = (L "dist/search.json", SearchJson (search_json s))
                 :: pages
                 ++ [(L "dist/index.html",
                      Page (home_page templateHtml postsListHtml (posts s)))].
Proof.
  unfold build. fold is_md.
  destruct (compile_all matter conv marked_lexer parse_date (filter is_md dir))
    as [e|ps]; [discriminate|].
  destruct (generate_all templateHtml articleHtml (sort_posts engine_order ps)
              (sort_posts engine_order ps)) as [pages [e|rels]] eqn:Eg;
    [discriminate|].
  destruct (@generate_all_inv _ _ _ _ Eg) as [_ [_ Ha]].
  rewrite (@home_arrays _ Ha). intros H. inversion H; subst; clear H.
  exists ps, pages. cbn [posts search_json related_posts]. auto.
Qed.

(** What a run has written, fulfilled or not: the search index, pages
    of posts and, last, the home page. *)
Lemma build_written dir :
  Forall (fun w =>
            match snd w with
            | SearchJson _ => True
            | Page html =>
                (exists post rel,
                    html = post_page templateHtml articleHtml post rel)
                \/ (exists posts,
                       html = home_page templateHtml postsListHtml posts)
            end)
    (fst (build TypeError matter conv marked_lexer parse_date engine_order
    templateHtml
            articleHtml postsListHtml dir)).
Proof.
  unfold build.
  destruct (compile_all matter conv marked_lexer parse_date
              (filter (fun f => endsWith (L ".md") (fst f)) dir))
    as [e|ps]; [constructor|].
  pose proof (generate_all_pages (sort_posts engine_order ps) (sort_posts engine_order ps))
    as Hp.
  destruct (generate_all templateHtml articleHtml (sort_posts engine_order ps)
              (sort_posts engine_order ps)) as [pages r].
  cbn [fst] in Hp.
  assert (Hp' : Forall (fun w =>
            match snd w with
            | SearchJson _ => True
            | Page html =>
                (exists post rel,
                    html = post_page templateHtml articleHtml post rel)
                \/ (exists posts,
                       html = home_page templateHtml postsListHtml posts)
            end) pages).
  { eapply Forall_impl; [|exact Hp]. cbv beta.
    intros w [post [rel ->]]. cbn [snd]. left. eauto. }
  destruct r as [e|rels]; cbn [fst]; [constructor; [exact I | exact Hp']|].
  destruct (home templateHtml postsListHtml (sort_posts engine_order ps))
    as [e|html] eqn:Eh; cbn [fst];
    (constructor; [exact I|]); [exact Hp'|].
  apply Forall_app. split; [exact Hp'|]. constructor; [|constructor].
  cbn [snd]. right. unfold home in Eh.
  destruct (map_throwing homeTagsHtml (sort_posts engine_order ps));
    [discriminate|].
  cbn [bind] in Eh. inversion Eh. eauto.
Qed.

End RunLemmas.

(** ** Casings of the tokens *)

Section Casings.
Import Regex JsString Build.

Lemma app_split_first (c : ascii) u v x y :
  ~ In c u -> ~ In c v -> u ++ c :: x = v ++ c :: y -> u = v.
Proof.
  revert v. induction u as [|a u IH]; intros [|b v] Hu Hv H; cbn [app] in H.
  - reflexivity.
  - inversion H; subst. exfalso. apply Hv. now left.
  - inversion H; subst. exfalso. apply Hu. now left.
  - inversion H; subst. f_equal. apply (IH v).
    + intros Hi. apply Hu. now right.
    + intros Hi. apply Hv. now right.
    + assumption.
Qed.

Lemma token_no_bracket tok :
  In tok alert_tokens ->
  ~ In "]"%char (L tok) /\ ~ In "]"%char (toLowerCase (L tok)).
Proof.
  unfold alert_tokens. cbn [In].
  intros [<-|[<-|[<-|[<-|[<-|[]]]]]]; split; cbn; intuition discriminate.
Qed.

(** A word that is a token but for the case of its letters holds no
    bracket. *)
Lemma casing_no_bracket word tok :
  In tok alert_tokens ->
  toLowerCase word = toLowerCase (L tok) ->
  ~ In "]"%char word.
Proof.
  intros Hin Hc Hw. apply (proj2 (@token_no_bracket tok Hin)).
  rewrite <- Hc. unfold toLowerCase.
  change "]"%char with (lower_char "]"%char). now apply in_map.
Qed.

Lemma tokens_lower_inj tok tok' :
  In tok alert_tokens -> In tok' alert_tokens ->
  toLowerCase (L tok') = toLowerCase (L tok) -> L tok' = L tok.
Proof.
  unfold alert_tokens. cbn [In].
  intros [<-|[<-|[<-|[<-|[<-|[]]]]]] [<-|[<-|[<-|[<-|[<-|[]]]]]] H;
    try reflexivity; vm_compute in H; discriminate H.
Qed.

(** A text whose marker holds a token in another casing is no alert. *)
Lemma alert_other_casing tok word tail :
  In tok alert_tokens ->
  toLowerCase word = toLowerCase (L tok) -> word <> L tok ->
  alert (L "<p>[!" ++ word ++ L "]" ++ tail) = None.
Proof.
  intros Hin Hc Hne.
  destruct (alert (L "<p>[!" ++ word ++ L "]" ++ tail)) as [a|] eqn:Ea;
    [exfalso | reflexivity].
  unfold alert in Ea.
  destruct (exec alert_re (L "<p>[!" ++ word ++ L "]" ++ tail))
    as [[[b0 e] c]|] eqn:E; [|discriminate].
  apply exec_alert_inv, alert_match_inv in E.
  destruct E as [tok' [ws [line [rest' [Hin' [_ [_ [Heq _]]]]]]]].
  apply app_inv_head in Heq.
  change (L "]" ++ tail) with ("]"%char :: tail) in Heq.
  change (L "]" ++ ws ++ line ++ L "</p>" ++ rest')
    with ("]"%char :: ws ++ line ++ L "</p>" ++ rest') in Heq.
  apply app_split_first in Heq.
  - apply Hne. subst word. now apply tokens_lower_inj.
  - now apply (@casing_no_bracket word tok).
  - apply (proj1 (@token_no_bracket tok' Hin')).
Qed.

Lemma callout_not_plain a content :
  callout_html a <> plain_blockquote content.
Proof. unfold callout_html, plain_blockquote, nl. cbn. discriminate. Qed.

End Casings.

(** ** The claims *)

Section Claims.
Import Regex JsString JsArray Build.

(** C1 (the script against the claim). On the inner HTML
    [<p>[!TIP] Remember this</p><p>More text</p>] the renderer finds the
    alert, with title [TIP] and type [tip], and the body holds
    [More text]. The pattern that removes the first line asks for
    [</p>] right behind the bracket and white space, so here it matches
    nothing and the body is the whole text, [[!TIP]] included. When the
    bracket closes the paragraph the first paragraph is removed; when
    the paragraph goes on on the next line, as in [> [!NOTE]] followed
    by [> Mind the loop], nothing is removed either. *)
Theorem blockquote_tip_trailing_text :
  let html := L "<p>[!TIP] Remember this</p><p>More text</p>" in
  alert html
  = Some {| type := L "tip"; title := L "TIP"; restOfContent := html |}
  /\ contains (L "More text") html = true
  /\ contains (L "[!TIP]") html = true
  /\ contains (L "[!TIP]") (blockquote (BlockquoteString html)) = true
  /\ alert (L "<p>[!TIP]</p><p>More text</p>")
     = Some {| type := L "tip"; title := L "TIP";
               restOfContent := L "<p>More text</p>" |}
  /\ restOfContent_of (L "<p>[!NOTE]" ++ nl ++ L "Mind the loop</p>" ++ nl)
     = Some (L "<p>[!NOTE]" ++ nl ++ L "Mind the loop</p>" ++ nl).
Proof. vm_compute. repeat split; reflexivity. Qed.

(** C2 (the claim as stated fails). A lower-case token is no alert: the
    text comes out as a plain blockquote, while the same text with the
    token in upper case is an alert. *)
Lemma alert_lowercase_not_detected :
  alert (L "<p>[!note] x</p>") = None
  /\ blockquote (BlockquoteString (L "<p>[!note] x</p>"))
     = plain_blockquote (L "<p>[!note] x</p>")
  /\ alert (L "<p>[!NOTE] x</p>")
     = Some {| type := L "note"; title := L "NOTE";
               restOfContent := L "<p>[!NOTE] x</p>" |}.
Proof. vm_compute. repeat split; reflexivity. Qed.

(** C2 (amended). Detection is case-sensitive. For each of the five
    tokens in upper case, every text that goes on on the same line and
    every rest, the blockquote [<p>[!TOKEN]text</p>rest] is rendered as
    a callout, not as a plain blockquote; the title of the callout is
    the token and its type is the token in lower case. With the token
    in any other casing the same content is no alert and is rendered as
    a plain blockquote; so is [<p>[!note] x</p>]. *)
Theorem alert_detects_uppercase_tokens (tok : string) (trailing rest : str) :
  In tok alert_tokens ->
  Forall (fun a => is_line_terminator a = false) trailing ->
  let html := fun word =>
    L "<p>[!" ++ word ++ L "]" ++ trailing ++ L "</p>" ++ rest in
  (exists a,
      alert (html (L tok)) = Some a
      /\ title a = L tok
      /\ type a = toLowerCase (L tok)
      /\ blockquote (BlockquoteString (html (L tok))) = callout_html a
      /\ blockquote (BlockquoteToken (Some (html (L tok)))) = callout_html a
      /\ callout_html a <> plain_blockquote (html (L tok))
      /\ forall b, contentStr b = html (L tok) ->
                   blockquote b = callout_html a)
  /\ (forall word,
         toLowerCase word = toLowerCase (L tok) -> word <> L tok ->
         alert (html word) = None
         /\ blockquote (BlockquoteString (html word))
            = plain_blockquote (html word)
         /\ blockquote (BlockquoteToken (Some (html word)))
            = plain_blockquote (html word)
         /\ forall b, contentStr b = html word ->
                      blockquote b = plain_blockquote (html word))
  /\ blockquote (BlockquoteString (L "<p>[!note] x</p>"))
     = plain_blockquote (L "<p>[!note] x</p>").
Proof.
  intros Hin Ht html. split; [|split; [|vm_compute; reflexivity]].
  - destruct (@alert_re_match tok trailing rest Hin Ht) as [e [c [He Hc]]].
    assert (Ha : alert (html (L tok))
                 = Some {| type := toLowerCase (L tok); title := L tok;
                           restOfContent :=
                             replace first_line_re [] (html (L tok)) |}).
    { unfold alert, group1, html. rewrite He, Hc. reflexivity. }
    assert (Hb : forall b, contentStr b = html (L tok) ->
                           blockquote b = callout_html
                             {| type := toLowerCase (L tok); title := L tok;
                                restOfContent :=
                                  replace first_line_re [] (html (L tok)) |}).
    { intros b Hb. unfold blockquote. now rewrite Hb, Ha. }
    eexists. split; [exact Ha|]. split; [reflexivity|].
    split; [reflexivity|].
    split; [apply Hb; reflexivity|].
    split; [apply Hb; reflexivity|].
    split; [apply callout_not_plain | exact Hb].
  - intros word Hc Hne.
    assert (Hn : alert (html word) = None)
      by (now apply (@alert_other_casing tok)).
    assert (Hb : forall b, contentStr b = html word ->
                           blockquote b = plain_blockquote (html word)).
    { intros b Hb. unfold blockquote. now rewrite Hb, Hn. }
    split; [exact Hn|].
    split; [apply Hb; reflexivity|].
    split; [apply Hb; reflexivity | exact Hb].
Qed.

(** The theorem at the token [WARNING], with text behind it. *)
Lemma alert_detects_uppercase_tokens_witness :
  In "WARNING"%string alert_tokens
  /\ Forall (fun a => is_line_terminator a = false) (L " Mind the gap")
  /\ (exists a, alert (L "<p>[!WARNING] Mind the gap</p><p>More</p>") = Some a
                /\ title a = L "WARNING")
  /\ alert (L "<p>[!Warning] Mind the gap</p><p>More</p>") = None.
Proof.
  assert (Hin : In "WARNING"%string alert_tokens) by (cbn; tauto).
  assert (Ht : Forall (fun a => is_line_terminator a = false)
                 (L " Mind the gap"))
    by (repeat constructor).
  split; [exact Hin|]. split; [exact Ht|].
  destruct (@alert_detects_uppercase_tokens "WARNING" (L " Mind the gap")
              (L "<p>More</p>") Hin Ht)
    as [[a [Ha [Htitle _]]] [Hother _]].
  split.
  - exists a. split; [exact Ha | exact Htitle].
  - apply (Hother (L "Warning")); [reflexivity | discriminate].
Defined.

(** C3 (the claim as stated fails). Every tag leaves a space behind:
    the snippet of [<b>Hi</b>] is [ Hi ], four characters, where the
    text with the tags deleted is [Hi]. *)
Lemma snippet_tags_leave_spaces :
  snippet (L "<b>Hi</b>") = L " Hi "
  /\ Spec.snippet_deleting (L "<b>Hi</b>") = L "Hi".
Proof. vm_compute. split; reflexivity. Qed.

(** C3 (amended). For every rendered HTML the snippet is the text with
    every span from a [<] to the next [>] (or to the end of the text,
    when no [>] follows) replaced by one space, cut at 300 characters;
    when that text is longer than 300 characters the snippet has exactly
    300. *)
Theorem snippet_spec (html : str) :
  snippet html = firstn 300 (Spec.replace_spans (L " ") false html)
  /\ length (snippet html)
     = Nat.min 300 (length (Spec.replace_spans (L " ") false html))
  /\ (300 < length (Spec.replace_spans (L " ") false html) ->
      length (snippet html) = 300).
Proof.
  rewrite snippet_blanks. unfold Spec.snippet_blanking.
  split; [reflexivity|]. rewrite length_firstn. split; [reflexivity|]. lia.
Qed.

(** C6. The reading time of a body is the number of its words, the
    maximal runs of characters that are not white space, over 200 and
    rounded up, and 1 at least: 1 for 200 words, 3 for 401 words, 1 for
    the empty body. *)
Theorem getReadingTime_spec (body : str) :
  getReadingTime body = Spec.readingTimeMinutes body
  /\ 1 <= getReadingTime body
  /\ (Spec.count_words false body = 200 -> getReadingTime body = 1)
  /\ (Spec.count_words false body = 401 -> getReadingTime body = 3)
  /\ getReadingTime [] = 1
  /\ getReadingTime (concat (repeat (L "word ") 200)) = 1
  /\ getReadingTime (concat (repeat (L "word ") 401)) = 3.
Proof.
  assert (E : getReadingTime body
              = ceil_div (Nat.max 1 (Spec.count_words false body)) 200).
  { unfold getReadingTime. now rewrite split_trim_length. }
  assert (S : getReadingTime body = Spec.readingTimeMinutes body).
  { rewrite E. unfold Spec.readingTimeMinutes.
    destruct (Spec.count_words false body) as [|n]; [reflexivity|].
    rewrite (Nat.max_r 1 (S n)) by lia.
    pose proof (@ceil_div_200_pos (S n)). lia. }
  split; [exact S|]. split; [|split; [|split; [|split; [|split]]]].
  - rewrite E. apply ceil_div_200_pos. lia.
  - intros H. rewrite E, H. reflexivity.
  - intros H. rewrite E, H. reflexivity.
  - reflexivity.
  - vm_compute. reflexivity.
  - vm_compute. reflexivity.
Qed.

(** C7 (the claim as stated fails). The anchor is made from the raw
    source of the heading when the token carries one: for the text
    [Hello] with the raw source [# Hello] the anchor is [-hello], not
    the [hello] that the text gives. *)
Lemma heading_anchor_prefers_raw :
  heading_anchor
    (HeadingToken (Some (L "Hello")) (Some 1%Z) None (Some (L "# Hello")))
  = L "-hello"
  /\ Spec.anchor (L "Hello") = L "hello".
Proof. vm_compute. split; reflexivity. Qed.

Lemma headerText_spec h : headerText h = Spec.heading_text h.
Proof. destruct h as [[[|c T]|] d l r|T lv r]; reflexivity. Qed.

Lemma headerLevel_spec h : headerLevel h = Spec.heading_level h.
Proof.
  destruct h as [T [[|d|d]|] [[|l|l]|] r|T lv r]; reflexivity.
Qed.

Lemma anchor_source_spec h :
  or_str (headerRaw h) (headerText h) = Spec.anchor_source h.
Proof.
  destruct h as [[[|c T]|] d l [[|c' R]|]|T lv [[|c' R]|]]; reflexivity.
Qed.

(** C7 (amended). For every heading with text [T] and level [L], the
    anchor is made from the raw source of the heading when it is
    present and not empty, and from [T] otherwise: that string in lower
    case, with every maximal run of characters outside [A-Za-z0-9_]
    replaced by one hyphen and no hyphen cleaned up at either end. The
    heading is emitted as [<h{L} id="{anchor}">{T}</h{L}>]; the anchor
    of [Hello World!] is [hello-world-]. *)
Theorem heading_anchor_spec (h : heading_args) (toc : list toc_entry) :
  heading_anchor h = Spec.anchor (Spec.anchor_source h)
  /\ fst (heading h toc)
     = L "<h" ++ of_num (Spec.heading_level h) ++ Q " id='"
         ++ Spec.anchor (Spec.anchor_source h)
         ++ Q "'>" ++ Spec.heading_text h
         ++ L "</h" ++ of_num (Spec.heading_level h) ++ L ">"
  /\ (forall T lv c R,
         heading_anchor (HeadingPositional T lv (Some (c :: R)))
         = Spec.anchor (c :: R))
  /\ (forall T d l c R,
         heading_anchor (HeadingToken T d l (Some (c :: R)))
         = Spec.anchor (c :: R))
  /\ (forall T lv,
         heading_anchor (HeadingPositional T lv None) = Spec.anchor T
         /\ heading_anchor (HeadingPositional T lv (Some [])) = Spec.anchor T)
  /\ (forall T d l,
         heading_anchor (HeadingToken (Some T) d l None) = Spec.anchor T
         /\ heading_anchor (HeadingToken (Some T) d l (Some []))
            = Spec.anchor T)
  /\ slugify (L "Hello World!") = L "hello-world-"
  /\ fst (heading (HeadingPositional (L "Hello World!") 2 None) [])
     = Q "<h2 id='hello-world-'>Hello World!</h2>".
Proof.
  assert (A : forall g, heading_anchor g = Spec.anchor (Spec.anchor_source g)).
  { intros g. unfold heading_anchor.
    now rewrite or_str_text, slugify_spec, anchor_source_spec. }
  split; [apply A|]. split.
  { cbn [heading fst]. unfold heading_html.
    now rewrite A, headerText_spec, headerLevel_spec. }
  split; [intros T lv c R; apply A|].
  split; [intros T d l c R; apply A|].
  split; [intros T lv; split; apply A|].
  split.
  { intros T d l. rewrite !A. unfold Spec.anchor_source.
    cbn [Spec.heading_raw Spec.heading_text]. split; reflexivity. }
  split; vm_compute; reflexivity.
Qed.



(** A name whose part before the extension holds no [.md] loses its
    extension and nothing else. *)
Lemma slug_of_file_extension base :
  contains (L ".md") base = false ->
  slug_of_file (base ++ L ".md") = base.
Proof.
  unfold slug_of_file. induction base as [|a b IH]; intros H; [reflexivity|].
  cbn [contains] in H. apply orb_false_iff in H. destruct H as [Hs Hc].
  assert (Hn : starts_with (L ".md") ((a :: b) ++ L ".md") = false).
  { change (L ".md") with ["."%char; "m"%char; "d"%char] in *.
    destruct b as [|c [|d b']]; cbn [starts_with app] in Hs |- *.
    - change (Ascii.eqb "m" ".") with false. cbn [andb]. apply andb_false_r.
    - change (Ascii.eqb "d" ".") with false. cbn [andb].
      now rewrite !andb_false_r.
    - exact Hs. }
  cbn [app] in *. cbn [replace_str]. rewrite Hn. now rewrite IH.
Qed.

(** C9 (the script against the claim). [replace] with the string [.md]
    removes the first [.md] of the name, not the extension: the slug of
    [notes.md.draft.md] is [notes.draft.md], where the name without its
    extension is [notes.md.draft]. A name with no other [.md] loses its
    extension. *)
Theorem slug_of_file_first_md :
  endsWith (L ".md") (L "notes.md.draft.md") = true
  /\ slug_of_file (L "notes.md.draft.md") = L "notes.draft.md"
  /\ slug_of_file (L "rust-ownership.md") = L "rust-ownership".
Proof. vm_compute. repeat split; reflexivity. Qed.

Lemma anchor_char_plain a :
  Spec.anchor_char a = true ->
  is_upper a = false /\ is_space a = false /\ is_line_terminator a = false.
Proof.
  destruct a as [[] [] [] [] [] [] [] []]; vm_compute;
    intros H; try discriminate H; repeat split.
Qed.

(** C10. Every anchor that the heading renderer makes, which is the
    anchor of the entry it adds to the table of contents and the [id] of
    the element it emits, holds lower-case letters, digits, underscores
    and hyphens only: no upper-case letter and no white space. The
    anchor of the empty text is empty. *)
Theorem anchor_charset (h : heading_args) (toc : list toc_entry) :
  Forall (fun a => Spec.anchor_char a = true) (heading_anchor h)
  /\ Forall (fun a => is_upper a = false /\ is_space a = false)
       (heading_anchor h)
  /\ (forall conv bs,
         Forall (fun e => Forall (fun a => Spec.anchor_char a = true) (anchor e))
           (snd (render_nodes conv bs [])))
  /\ fst (heading h toc)
     = L "<h" ++ of_num (headerLevel h) ++ Q " id='" ++ heading_anchor h
         ++ Q "'>" ++ headerText h ++ L "</h" ++ of_num (headerLevel h)
         ++ L ">"
  /\ heading_anchor (HeadingToken None None None None) = []
  /\ heading_anchor (HeadingPositional [] 1 None) = [].
Proof.
  assert (C : forall g, Forall (fun a => Spec.anchor_char a = true)
                          (heading_anchor g))
    by (intros g; apply slugify_charset).
  split; [apply C|]. split.
  { eapply Forall_impl; [|apply C]. cbn. intros a Ha.
    destruct (anchor_char_plain a Ha) as [U [S _]]. now split. }
  split.
  { intros conv bs. rewrite render_nodes_toc. cbn [app].
    apply Forall_forall. intros e He. apply in_map_iff in He.
    destruct He as [g [<- _]]. rewrite <- heading_call_anchor. apply C. }
  repeat split.
Qed.

Lemma by_count_ext count count' l :
  (forall p, In p l -> count p = count' p) ->
  Spec.by_count count l = Spec.by_count count' l.
Proof.
  intros H. unfold Spec.by_count.
  rewrite (map_ext_in count count' l H).
  apply flat_map_ext. intros k. apply filter_ext_in.
  intros p Hp. now rewrite (H p Hp).
Qed.

Lemma by_count_none count l :
  (forall p, In p l -> count p = 0) -> Spec.by_count count l = [].
Proof.
  intros H. unfold Spec.by_count.
  assert (Z0 : list_max (map count l) = 0).
  { apply Nat.le_0_r. apply list_max_le. apply Forall_forall.
    intros k Hk. apply in_map_iff in Hk. destruct Hk as [p [<- Hp]].
    now rewrite (H p Hp). }
  rewrite Z0. reflexivity.
Qed.

(** Three posts, the most recent first: [a] and [b] share one tag, [b]
    and [c] share one tag, [a] and [c] share none. *)
Lemma related_examples :
  let A := Examples.tagged "a" 3 ["x"; "y"]%string in
  let B := Examples.tagged "b" 2 ["y"; "z"]%string in
  let C := Examples.tagged "c" 1 ["z"]%string in
  related A [A; B; C] = inr [B] /\ related B [A; B; C] = inr [A; C]
  /\ related (Examples.tagged "d" 0 ["w"]%string) [A; B; C] = inr [].
Proof. vm_compute. repeat split; reflexivity. Qed.

(** C5 (the claim as stated fails). The count is the number of entries
    of the other post's tags that the target's tags hold, repeated
    entries counted again: against a target tagged [x, y], a post tagged
    [x, x, x] counts 3 and is ranked before a post tagged [x, y], which
    counts 2; by the size of the intersection (1 against 2) the order is
    the opposite. *)
Lemma related_counts_repeated_tags :
  let T := Examples.tagged "t" 3 ["x"; "y"]%string in
  let P1 := Examples.tagged "p1" 2 ["x"; "y"]%string in
  let P2 := Examples.tagged "p2" 1 ["x"; "x"; "x"]%string in
  sort by_date_desc [T; P1; P2] = [T; P1; P2]
  /\ related T [T; P1; P2] = inr [P2; P1]
  /\ Spec.related_by_intersection T [T; P1; P2] = [P1; P2].
Proof. vm_compute. repeat split; reflexivity. Qed.

(** C5 (amended). For a target and a corpus whose tags are arrays, the
    related list is made of the posts with another slug and a count
    above 0, where the count of a post is the number of entries of its
    tags that the target's tags hold, a repeated entry counted again;
    the posts of the highest count come first, posts of equal count
    stand in the order of the corpus, and the first 3 are kept; without
    such a post the list is empty. When no post of the corpus repeats a
    tag the count is the size of the intersection of the two tag
    sets. *)
Theorem related_spec (target : Post) (corpus : list Post) :
  is_array (tags target) = true ->
  Forall (fun p => is_array (tags p) = true) corpus ->
  related target corpus = inr (Spec.related_ranking target corpus)
  /\ (forall p, In p corpus ->
        score target p
        = inr {| post := p;
                 matches := Spec.shared_entries (Spec.tag_list target)
                              (Spec.tag_list p) |})
  /\ length (Spec.related_ranking target corpus) <= 3
  /\ ((forall p, In p corpus -> Spec.other_than target p = true ->
                 Spec.shared_entries (Spec.tag_list target) (Spec.tag_list p)
                 = 0) ->
      related target corpus = inr [])
  /\ ((forall p, In p corpus -> NoDup (Spec.tag_list p)) ->
      related target corpus
      = inr (Spec.related_by_intersection target corpus))
  /\ (let A := Examples.tagged "a" 3 ["x"; "y"]%string in
      let B := Examples.tagged "b" 2 ["y"; "z"]%string in
      let C := Examples.tagged "c" 1 ["z"]%string in
      related A [A; B; C] = inr [B] /\ related B [A; B; C] = inr [A; C]
      /\ related (Examples.tagged "d" 0 ["w"]%string) [A; B; C] = inr [])
  /\ (let T := Examples.tagged "t" 3 ["x"; "y"]%string in
      let P1 := Examples.tagged "p1" 2 ["x"; "y"]%string in
      let P2 := Examples.tagged "p2" 1 ["x"; "x"; "x"]%string in
      Spec.shared_entries (Spec.tag_list T) (Spec.tag_list P2) = 3
      /\ related T [T; P1; P2] = inr [P2; P1]).
Proof.
  intros Ht Hc.
  pose proof (@related_arrays target corpus Ht Hc) as R.
  split; [exact R|]. split.
  { intros p Hp. apply score_arrays; [exact Ht|].
    rewrite Forall_forall in Hc. now apply Hc. }
  split; [unfold Spec.related_ranking; rewrite length_firstn; lia|].
  split.
  { intros H. rewrite R. unfold Spec.related_ranking.
    rewrite by_count_none; [reflexivity|].
    intros p Hp. apply filter_In in Hp. destruct Hp as [Hp Ho].
    now apply H. }
  split.
  { intros H. rewrite R.
    unfold Spec.related_ranking, Spec.related_by_intersection.
    do 2 f_equal. apply by_count_ext. intros p Hp.
    apply filter_In in Hp. destruct Hp as [Hp _].
    apply shared_inter. now apply H. }
  split; [exact related_examples|].
  vm_compute. split; reflexivity.
Qed.

(** The theorem at the three posts of the example. *)
Lemma related_spec_witness :
  let A := Examples.tagged "a" 3 ["x"; "y"]%string in
  let B := Examples.tagged "b" 2 ["y"; "z"]%string in
  let C := Examples.tagged "c" 1 ["z"]%string in
  related B [A; B; C] = inr (Spec.related_ranking B [A; B; C])
  /\ Spec.related_ranking B [A; B; C] = [A; C].
Proof.
  intros A B C. split; [|reflexivity].
  refine (proj1 (@related_spec B [A; B; C] eq_refl _)).
  repeat constructor.
Defined.



End Claims.

(** ** Further properties: alerts *)

Section AlertFacts.
Import Regex JsString Build.

(** X1. A blockquote is rendered as a callout exactly when its content
    is [<p>[!], one of the five tokens in upper case, []], white space,
    text without a line break, [</p>] and anything behind it; every
    other content is rendered as a plain blockquote around it. *)
Theorem blockquote_alert_iff (b : blockquote_args) :
  ((exists a, alert (contentStr b) = Some a /\ blockquote b = callout_html a)
   <-> Spec.alert_shape (contentStr b))
  /\ (~ Spec.alert_shape (contentStr b) ->
      blockquote b = plain_blockquote (contentStr b)).
Proof.
  assert (F : forall a, alert (contentStr b) = Some a ->
                        Spec.alert_shape (contentStr b)).
  { intros a Ha. unfold alert in Ha.
    destruct (exec alert_re (contentStr b)) as [[[b0 e] c]|] eqn:E;
      [|discriminate].
    apply exec_alert_inv, alert_match_inv in E.
    destruct E as [tok [ws [line [rest [H1 [H2 [H3 [H4 _]]]]]]]].
    exists tok, ws, line, rest. auto. }
  split; [split|].
  - intros [a [Ha _]]. eauto.
  - intros [tok [ws [line [rest [Hin [Hws [Hline Hc]]]]]]].
    destruct (alert_match_shape rest Hin Hws Hline) as [e [c [He _]]].
    rewrite <- Hc in He. unfold blockquote, alert. rewrite He. eauto.
  - intros Hn. unfold blockquote.
    destruct (alert (contentStr b)) as [a|] eqn:Ha; [|reflexivity].
    exfalso. eauto.
Qed.

(** X2. The title of every callout is one of the five tokens and its
    type is that token in lower case, a key of both tables: the icon
    and the colour are those of the type, and the fallback to the entry
    of [note] is never taken. *)
Theorem callout_type_known (content : str) (a : callout) :
  alert content = Some a ->
  exists tok,
    In tok alert_tokens
    /\ title a = L tok
    /\ type a = toLowerCase (L tok)
    /\ lookup (type a) icons = Some (lookup_or_note icons (type a))
    /\ lookup (type a) colors = Some (lookup_or_note colors (type a)).
Proof.
  intros Ha. unfold alert in Ha.
  destruct (exec alert_re content) as [[[b0 e] c]|] eqn:E; [|discriminate].
  apply exec_alert_inv, alert_match_inv in E.
  destruct E as [tok [ws [line [rest [Hin [_ [_ [_ Hc]]]]]]]].
  inversion Ha; subst a; clear Ha. cbn [title type]. unfold group1.
  rewrite Hc. exists tok. split; [exact Hin|].
  split; [reflexivity|]. split; [reflexivity|].
  unfold alert_tokens in Hin. cbn [In] in Hin.
  destruct Hin as [<-|[<-|[<-|[<-|[<-|[]]]]]]; split; vm_compute; reflexivity.
Qed.

(** The theorem at the alert [<p>[!CAUTION] Hot</p>]. *)
Lemma callout_type_known_witness :
  exists tok,
    In tok alert_tokens
    /\ lookup (L "caution") colors
       = Some (lookup_or_note colors (L "caution"))
    /\ L tok = L "CAUTION".
Proof.
  destruct (@callout_type_known (L "<p>[!CAUTION] Hot</p>")
              {| type := L "caution"; title := L "CAUTION";
                 restOfContent := L "<p>[!CAUTION] Hot</p>" |} eq_refl)
    as [tok [Hin [Ht [_ [_ Hc]]]]].
  exists tok. split; [exact Hin|]. split; [exact Hc|]. symmetry. exact Ht.
Defined.

(** X3. When the paragraph of the marker holds the marker and white
    space only, the callout has the token as its title and, as its
    body, the content behind that paragraph: the first paragraph is
    removed whole. *)
Theorem alert_marker_paragraph_removed (tok : string) (ws rest : str) :
  In tok alert_tokens ->
  Forall (fun a => is_space a = true) ws ->
  alert (L "<p>[!" ++ L tok ++ L "]" ++ ws ++ L "</p>" ++ rest)
  = Some {| type := toLowerCase (L tok); title := L tok;
            restOfContent := rest |}.
Proof.
  intros Hin Hws.
  destruct (@alert_match_shape tok ws [] rest Hin Hws (Forall_nil _))
    as [e [c [He Hc]]].
  cbn [app] in He. unfold alert, group1. rewrite He, Hc. f_equal. f_equal.
  unfold replace, exec.
  rewrite (exec_from_match _ _ _ (first_line_match rest (token_plain Hin) Hws)).
  cbn [firstn app].
  replace (L "<p>[!" ++ L tok ++ L "]" ++ ws ++ L "</p>" ++ rest)
    with ((L "<p>[!" ++ L tok ++ L "]" ++ ws ++ L "</p>") ++ rest)
    by (now rewrite <- !app_assoc).
  apply skipn_length_app.
Qed.

(** The theorem at [<p>[!NOTE]</p>] and a second paragraph. *)
Lemma alert_marker_paragraph_removed_witness :
  alert (L "<p>[!NOTE]</p><p>Body</p>")
  = Some {| type := L "note"; title := L "NOTE";
            restOfContent := L "<p>Body</p>" |}.
Proof.
  refine (@alert_marker_paragraph_removed "NOTE" [] (L "<p>Body</p>") _ _).
  - cbn. tauto.
  - constructor.
Defined.

End AlertFacts.

(** ** Further properties: snippets and anchors *)

Section TextFacts.
Import Regex JsString Build.

Lemma replace_spans_no_open sub s :
  Forall (fun a => Ascii.eqb a "<" = false) sub ->
  forall b, Forall (fun a => Ascii.eqb a "<" = false)
              (Spec.replace_spans sub b s).
Proof.
  intros Hsub. induction s as [|a t IH]; intros b; [constructor|].
  cbn [Spec.replace_spans]. destruct b.
  - destruct (Ascii.eqb a ">"); apply IH.
  - destruct (Ascii.eqb a "<") eqn:E.
    + apply Forall_app. split; [exact Hsub | apply IH].
    + constructor; [exact E | apply IH].
Qed.

Lemma replace_spans_plain sub s :
  Forall (fun a => Ascii.eqb a "<" = false) s ->
  Spec.replace_spans sub false s = s.
Proof.
  induction 1 as [|a t Ha Ht IH]; [reflexivity|].
  cbn [Spec.replace_spans]. now rewrite Ha, IH.
Qed.

Lemma replace_spans_length c s :
  forall b, length (Spec.replace_spans [c] b s) <= length s.
Proof.
  induction s as [|a t IH]; intros b; [reflexivity|].
  pose proof (IH true) as IHt. pose proof (IH false) as IHf.
  cbn [Spec.replace_spans]. destruct b.
  - destruct (Ascii.eqb a ">"); cbn [length]; lia.
  - destruct (Ascii.eqb a "<"); cbn [app length]; lia.
Qed.

Lemma Forall_firstn_keeps (A : Type) (P : A -> Prop) n (l : list A) :
  Forall P l -> Forall P (firstn n l).
Proof.
  intros H. rewrite <- (firstn_skipn n l) in H.
  apply Forall_app in H. tauto.
Qed.

(** X4. The snippet of a search record never holds a [<]; it is at
    most 300 characters long and never longer than the rendered HTML; a
    text without [<] is its own snippet, up to the cut. *)
Theorem snippet_holds_no_tag (html : str) :
  Forall (fun a => Ascii.eqb a "<" = false) (snippet html)
  /\ length (snippet html) <= 300
  /\ length (snippet html) <= length html
  /\ (Forall (fun a => Ascii.eqb a "<" = false) html ->
      snippet html = firstn 300 html).
Proof.
  rewrite snippet_blanks. unfold Spec.snippet_blanking.
  split; [|split; [|split]].
  - apply Forall_firstn_keeps, replace_spans_no_open. repeat constructor.
  - rewrite length_firstn. lia.
  - rewrite length_firstn.
    pose proof (replace_spans_length " "%char html false) as H.
    change (L " ") with [" "%char]. lia.
  - intros H. now rewrite replace_spans_plain.
Qed.

Lemma anchor_char_lower a : Spec.anchor_char a = true -> lower_char a = a.
Proof.
  destruct a as [[] [] [] [] [] [] [] []]; vm_compute;
    intros H; try discriminate H; reflexivity.
Qed.

Lemma word_not_hyphen a : is_word a = true -> Ascii.eqb "-" a = false.
Proof.
  destruct a as [[] [] [] [] [] [] [] []]; vm_compute;
    intros H; try discriminate H; reflexivity.
Qed.

Lemma collapse_runs_idem s :
  Spec.collapse_runs false (Spec.collapse_runs false s)
  = Spec.collapse_runs false s
  /\ Spec.collapse_runs true (Spec.collapse_runs true s)
     = Spec.collapse_runs true s.
Proof.
  induction s as [|a t [IHf IHt]]; [split; reflexivity|].
  cbn [Spec.collapse_runs]. destruct (is_word a) eqn:Hw.
  - cbn [Spec.collapse_runs]. rewrite Hw, IHf. split; reflexivity.
  - split; [|exact IHt].
    cbn [Spec.collapse_runs]. change (is_word "-") with false. cbv iota.
    now rewrite IHt.
Qed.

(** Runs come out as one hyphen: no two hyphens stand side by side. *)
Lemma collapse_runs_single s :
  contains (L "--") (Spec.collapse_runs false s) = false
  /\ contains (L "--") (Spec.collapse_runs true s) = false
  /\ starts_with (L "-") (Spec.collapse_runs true s) = false.
Proof.
  change (L "--") with ["-"%char; "-"%char]. change (L "-") with ["-"%char].
  induction s as [|a t [IHf [IHt IHs]]]; [repeat split; reflexivity|].
  cbn [Spec.collapse_runs]. destruct (is_word a) eqn:Hw.
  - cbn [contains starts_with]. rewrite (word_not_hyphen a Hw), IHf.
    repeat split; reflexivity.
  - split; [|split; assumption].
    cbn [contains starts_with] in *. rewrite Ascii.eqb_refl, IHt.
    cbn [andb]. rewrite IHs. reflexivity.
Qed.

Lemma collapse_runs_length s :
  forall b, length (Spec.collapse_runs b s) <= length s.
Proof.
  induction s as [|a t IH]; intros b; [reflexivity|].
  pose proof (IH true). pose proof (IH false).
  cbn [Spec.collapse_runs]. destruct (is_word a), b; cbn [length]; lia.
Qed.

(** X5. Making an anchor is idempotent, so the anchor of a heading
    whose text is already an anchor is that text; an anchor never holds
    two hyphens in a row, and is never longer than the text in lower
    case that it is made from. *)
Theorem slugify_idempotent (s : str) :
  slugify (slugify s) = slugify s
  /\ contains (L "--") (slugify s) = false
  /\ length (slugify s) <= length (toLowerCase s).
Proof.
  split; [|split].
  - assert (E : toLowerCase (slugify s) = slugify s).
    { pose proof (slugify_charset s) as H. unfold toLowerCase.
      induction H as [|a t Ha Ht IH]; [reflexivity|].
      cbn [map]. now rewrite (anchor_char_lower a Ha), IH. }
    rewrite (slugify_spec (slugify s)). unfold Spec.anchor. rewrite E.
    rewrite slugify_spec. unfold Spec.anchor.
    apply (proj1 (collapse_runs_idem _)).
  - rewrite slugify_spec. apply (proj1 (collapse_runs_single _)).
  - rewrite slugify_spec. unfold Spec.anchor.
    apply (collapse_runs_length (toLowerCase s) false).
Qed.

End TextFacts.

(** ** Further properties: ranking, ordering and the run *)

Section RankFacts.
Import JsString JsArray Build.

(** X6. Every related post comes from the corpus, has another slug than
    the target, and holds a tag that the tags of the target include:
    that the target holds, when its tags are an array. *)
Theorem related_members (target : Post) (corpus l : list Post) (p : Post) :
  related target corpus = inr l -> In p l ->
  In p corpus
  /\ slug p <> slug target
  /\ (exists tag, In tag (Spec.tag_list p)
                  /\ tags_includes (tags target) tag = inr true)
  /\ (is_array (tags target) = true ->
      exists tag, In tag (Spec.tag_list p) /\ In tag (Spec.tag_list target)).
Proof.
  intros H Hp.
  destruct (@related_origin target corpus l p H Hp) as [H1 [H2 [tag [H3 H4]]]].
  split; [exact H1|]. split; [exact H2|]. split; [eauto|].
  intros Ha. exists tag. split; [exact H3|].
  unfold Spec.tag_list. destruct (tags target) as [lt| |]; try discriminate.
  cbn [tags_includes] in H4. inversion H4. now apply includes_In.
Qed.

(** The theorem at two posts that share the tag [go]. *)
Lemma related_members_witness :
  let A := Examples.tagged "a" 2 ["go"; "web"]%string in
  let B := Examples.tagged "b" 1 ["go"]%string in
  In B [A; B] /\ slug B <> slug A
  /\ (exists tag, In tag (Spec.tag_list B)
                  /\ tags_includes (tags A) tag = inr true)
  /\ (is_array (tags A) = true ->
      exists tag, In tag (Spec.tag_list B) /\ In tag (Spec.tag_list A)).
Proof.
  intros A B.
  apply (@related_members A [A; B] [B] B eq_refl). left. reflexivity.
Defined.

Lemma sorted_app_order (A : Type) (R : A -> A -> Prop) (l1 l2 : list A) :
  StronglySorted R (l1 ++ l2) ->
  Forall (fun x => Forall (R x) l2) l1.
Proof.
  induction l1 as [|a l1 IH]; intros H; [constructor|].
  cbn [app] in H. apply StronglySorted_inv in H. destruct H as [Hs Ha].
  constructor; [|now apply IH].
  apply Forall_app in Ha. tauto.
Qed.

(** X7. When the counting throws nothing, the related list holds as
    many posts as there are candidates, up to 3, and the candidates
    left out count no more matches than any candidate kept. *)
Theorem related_keeps_best (target : Post) (corpus : list Post)
    (c : list Scored) :
  candidates target corpus = inr c ->
  exists r,
    ranked target corpus = inr r
    /\ related target corpus = inr (map post (firstn 3 r))
    /\ length (firstn 3 r) = Nat.min 3 (length c)
    /\ Forall (fun kept =>
                 Forall (fun left => matches left <= matches kept)
                   (skipn 3 r))
         (firstn 3 r).
Proof.
  intros Hc. exists (sort by_matches_desc c).
  unfold related, ranked. rewrite Hc. cbn [bind].
  split; [reflexivity|]. split; [reflexivity|]. split.
  - rewrite length_firstn. f_equal.
    exact (Permutation_length (sort_perm matches c)).
  - apply sorted_app_order with (R := fun a b => matches b <= matches a).
    rewrite firstn_skipn. exact (sort_sorted matches c).
Qed.

(** The theorem at four posts that hold the tag of a fifth. *)
Lemma related_keeps_best_witness :
  let T := Examples.tagged "t" 5 ["x"; "y"]%string in
  let P1 := Examples.tagged "p1" 4 ["x"]%string in
  let P2 := Examples.tagged "p2" 3 ["x"; "y"]%string in
  let P3 := Examples.tagged "p3" 2 ["y"]%string in
  let P4 := Examples.tagged "p4" 1 ["y"; "x"]%string in
  exists r,
    ranked T [T; P1; P2; P3; P4] = inr r
    /\ related T [T; P1; P2; P3; P4] = inr (map post (firstn 3 r))
    /\ map post (firstn 3 r) = [P2; P4; P1].
Proof.
  intros T P1 P2 P3 P4.
  destruct (@related_keeps_best T [T; P1; P2; P3; P4] _ eq_refl)
    as [r [Hr [Hl _]]].
  exists r. split; [exact Hr|]. split; [exact Hl|].
  vm_compute in Hr. inversion Hr. reflexivity.
Defined.


End RankFacts.

Section RenderFacts.
Import JsString Build.

(** X11. The HTML of a document does not depend on the table of
    contents that the renderer has collected so far, and rendering only
    appends to that table: the entries already there are kept, in
    order, before the entries of the document. *)
Theorem render_nodes_appends (conv : convention) (ns : list node)
    (toc : list toc_entry) :
  fst (render_nodes conv ns toc) = fst (render_nodes conv ns [])
  /\ snd (render_nodes conv ns toc) = toc ++ snd (render_nodes conv ns []).
Proof.
  split.
  - apply render_nodes_html_from. apply Forall_forall. intros n _.
    apply render_node_html.
  - now rewrite (render_nodes_toc conv ns toc), (render_nodes_toc conv ns []).
Qed.

End RenderFacts.

Section RunFacts.
Import JsString JsArray Build.

Variable exn : Type.
Variable TypeError : type_error -> exn.
Variable matter : str -> exn + (metadata * str).
Variable conv : convention.
Variable marked_lexer : str -> list node.
Variable parse_date : option str -> option Z.
Variable engine_order : forall l : list Post, {l' : list Post | Permutation l' l}.
Variable templateHtml : str.
Variable articleHtml : Post -> list Post -> str.
Variable postsListHtml : list Post -> str.

Let is_md (f : str * str) : bool := endsWith (L ".md") (fst f).




(** X12. No page that the script writes holds the placeholder
    [{{base}}], in a run that is fulfilled and in one that is not:
    every occurrence, those of the template and those that the title,
    the article or the list of posts bring in, is replaced. This holds
    of the page of every post and of every home page. *)
Theorem pages_hold_no_base (dir : list (str * str)) :
  Forall (fun w =>
            match snd w with
            | SearchJson _ => True
            | Page html => contains (L "{{base}}") html = false
            end)
    (fst (build TypeError matter conv marked_lexer parse_date engine_order
            templateHtml articleHtml postsListHtml dir))
  /\ (forall post related,
         contains (L "{{base}}")
           (post_page templateHtml articleHtml post related) = false)
  /\ (forall posts,
         contains (L "{{base}}")
           (home_page templateHtml postsListHtml posts) = false).
Proof.
  split; [|split; [apply post_page_no_base | apply home_page_no_base]].
  eapply Forall_impl;
    [|exact (@build_written exn TypeError matter conv marked_lexer parse_date
               engine_order templateHtml articleHtml postsListHtml dir)].
  cbv beta. intros [path [index|html]]; cbn [snd]; [auto|].
  intros [[post [rel ->]]|[posts ->]].
  - apply post_page_no_base.
  - apply home_page_no_base.
Qed.

(** X14. In what a fulfilled run hands over, every post has a reading
    time of 1 at least and a table of contents with levels up to 3,
    every search snippet has 300 characters at most, and every post has
    3 related posts at most, itself never among them. *)
Theorem site_bounds (dir : list (str * str)) :
  match snd (build TypeError matter conv marked_lexer parse_date engine_order
      templateHtml
               articleHtml postsListHtml dir) with
  | Fulfilled _ s =>
      Forall (fun p => 1 <= readingTime p
                       /\ Forall (fun e => (level e <= 3)%Z) (toc p))
        (posts s)
      /\ Forall (fun r => length (content r) <= 300) (search_json s)
      /\ Forall (fun r => length (snd r) <= 3
                          /\ ~ In (fst r) (map slug (snd r)))
           (related_posts s)
  | Rejected _ _ => True
  end.
Proof.
  destruct (build TypeError matter conv marked_lexer parse_date engine_order
      templateHtml
              articleHtml postsListHtml dir) as [files [s|e]] eqn:B;
    cbn [snd]; [|exact I].
  apply build_fulfilled_inv in B.
  destruct B as [ps [pages [Hps [Hposts [Hsearch [Hg _]]]]]].
  split; [|split].
  - rewrite Hposts.
    apply (Permutation_Forall
             (Permutation_sym (sort_posts_perm engine_order ps))).
    apply compile_all_posts in Hps.
    clear -Hps. induction Hps as [|f p files ps Hc Hrest IH]; constructor.
    + exact (compile_post_bounds _ _ _ _ _ _ Hc).
    + exact IH.
  - rewrite Hsearch. unfold searchIndex. apply Forall_forall. intros r Hr.
    apply in_map_iff in Hr. destruct Hr as [p [<- _]]. cbn [content].
    unfold snippet, substring0. rewrite length_firstn. lia.
  - apply generate_all_inv in Hg. destruct Hg as [_ [Hr _]].
    clear -Hr. induction Hr as [|post r posts' rels [Hs Hrel] Hrest IH];
      constructor; [|exact IH].
    split; [exact (related_length _ _ Hrel)|].
    rewrite Hs. intros Hin. apply in_map_iff in Hin.
    destruct Hin as [q [Hq Hin]].
    now destruct (proj1 (proj2 (@related_origin _ _ _ _ Hrel Hin))).
Qed.

Lemma page_path_inj p q : page_path p = page_path q -> slug p = slug q.
Proof.
  unfold page_path. intros H. apply app_inv_head in H.
  now apply app_inv_tail in H.
Qed.

(** When the slugs differ, so do the paths of the pages, of the
    search index and of the home page. *)
Lemma paths_differ (ps : list Post) :
  NoDup (map slug ps) ->
  NoDup (L "dist/search.json" :: map page_path ps ++ [L "dist/index.html"]).
Proof.
  intros H.
  assert (P : forall path, In path (map page_path ps) ->
                path <> L "dist/search.json" /\ path <> L "dist/index.html").
  { intros path Hin. apply in_map_iff in Hin. destruct Hin as [p [<- _]].
    unfold page_path. split; intros Hc; cbn in Hc; discriminate Hc. }
  constructor.
  - intros Hin. apply in_app_or in Hin. destruct Hin as [Hin|[Hin|[]]].
    + now destruct (proj1 (P _ Hin)).
    + discriminate Hin.
  - apply NoDup_app.
    + clear -H. induction ps as [|p l IH]; [constructor|].
      cbn [map] in *. apply NoDup_cons_iff in H. destruct H as [Hp H].
      constructor; [|now apply IH].
      intros Hin. apply in_map_iff in Hin. destruct Hin as [q [Hq Hin]].
      apply page_path_inj in Hq. apply Hp. rewrite <- Hq. now apply in_map.
    + repeat constructor. intros [].
    + intros path Hin [Hhome|[]]. now destruct (proj2 (P _ Hin)).
Qed.

(** X15. When the slugs of the posts differ, the files of a fulfilled
    run are written to paths that differ: no page of a post replaces
    another, and none replaces the home page or the search index. The
    paths are those of the search index, of the pages of the posts in
    their order, and of the home page. *)
Theorem pages_paths_differ (dir : list (str * str)) (files : list (str * file))
    (s : Site) :
  build TypeError matter conv marked_lexer parse_date engine_order
      templateHtml articleHtml postsListHtml dir = (files, Fulfilled _ s) ->
  NoDup (map slug (posts s)) ->
  map fst files
  = L "dist/search.json" :: map page_path (posts s) ++ [L "dist/index.html"]
  /\ NoDup (map fst files)
  /\ (forall ps, NoDup (map slug ps) ->
                 NoDup (map page_path ps ++ [L "dist/index.html"])).
Proof.
  intros B H. apply build_fulfilled_inv in B.
  destruct B as [ps [pages [_ [_ [_ [Hg ->]]]]]].
  apply generate_all_inv in Hg. destruct Hg as [Hp _].
  assert (E : map fst pages = map page_path (posts s)).
  { clear -Hp. induction Hp as [|post page l l' [rel ->] Hrest IH];
      [reflexivity|]. cbn [map fst]. now rewrite IH. }
  assert (F : map fst
                ((L "dist/search.json", SearchJson (search_json s))
                   :: pages
                   ++ [(L "dist/index.html",
                        Page (home_page templateHtml postsListHtml (posts s)))])
              = L "dist/search.json" :: map page_path (posts s)
                  ++ [L "dist/index.html"]).
  { cbn [map fst]. rewrite map_app, E. reflexivity. }
  split; [exact F|]. split.
  - rewrite F. now apply paths_differ.
  - intros l Hl. apply paths_differ in Hl. now apply NoDup_cons_iff in Hl.
Qed.

End RunFacts.

Section RunExamples.
Import JsString JsArray Build.



(** The theorem on two documents. *)
Lemma pages_paths_differ_witness :
  NoDup
    (map fst
       (fst (Examples.example_build [(L "a.md", L "a"); (L "b.md", L "b")]))).
Proof.
  refine (proj1 (proj2 (@pages_paths_differ Examples.thrown Examples.TypeErrorOf
            Examples.example_matter Tokens Examples.example_lexer
            (fun _ => None) Examples.example_order
            Examples.example_template (fun _ _ => L "<p>a</p>")
            (fun _ => L "<ul></ul>")
            [(L "a.md", L "a"); (L "b.md", L "b")] _ _ eq_refl _))).
  cbn. repeat constructor; cbn; intuition discriminate.
Defined.

End RunExamples.

(** ** Further properties: the pages *)

Section PageFacts.
Import Regex JsString Build.

Lemma replace_first_from_eq pat repl passed s :
  replace_first_from pat repl passed s
  = if starts_with pat s then
      get_substitution pat (rev passed) (skipn (length pat) s) repl
        ++ skipn (length pat) s
    else match s with
         | [] => []
         | a :: t => a :: replace_first_from pat repl (a :: passed) t
         end.
Proof. destruct s; reflexivity. Qed.

(** The replacement happens behind [pre] when no occurrence of the
    pattern begins within [pre]. *)
Lemma replace_first_from_at pat repl rest pre :
  forall passed,
    contains pat (pre ++ removelast pat) = false ->
    replace_first_from pat repl passed (pre ++ pat ++ rest)
    = pre ++ get_substitution pat (rev passed ++ pre) rest repl ++ rest.
Proof.
  induction pre as [|a pre IH]; intros passed H.
  - cbn [app]. rewrite replace_first_from_eq, starts_with_app.
    rewrite skipn_length_app, app_nil_r. reflexivity.
  - assert (Hp : pat <> []).
    { intros ->. destruct pre; discriminate. }
    cbn [app contains] in H. apply orb_false_iff in H. destruct H as [Hs Hc].
    assert (Hn : starts_with pat (a :: pre ++ pat ++ rest) = false).
    { rewrite (app_removelast_last "$"%char Hp) at 2.
      rewrite <- app_assoc, app_assoc.
      change (a :: (pre ++ removelast pat) ++ [last pat "$"%char] ++ rest)
        with ((a :: pre ++ removelast pat) ++ [last pat "$"%char] ++ rest).
      rewrite starts_with_long; [exact Hs|].
      cbn [length]. rewrite length_app, (removelast_length Hp). lia. }
    cbn [app]. rewrite replace_first_from_eq, Hn.
    rewrite (IH (a :: passed) Hc). cbn [rev]. now rewrite <- app_assoc.
Qed.

Lemma replace_first_at pat repl pre rest :
  contains pat (pre ++ removelast pat) = false ->
  replace_first pat repl (pre ++ pat ++ rest)
  = pre ++ get_substitution pat pre rest repl ++ rest.
Proof. intros H. unfold replace_first. now rewrite replace_first_from_at. Qed.

(** Text without a dollar is inserted as it is. *)
Lemma get_substitution_plain matched before after x r :
  Forall (fun a => Ascii.eqb a "$" = false) x ->
  get_substitution matched before after (x ++ r)
  = x ++ get_substitution matched before after r.
Proof.
  induction 1 as [|a x Ha Hx IH]; [reflexivity|].
  cbn [app get_substitution]. rewrite Ha, IH. reflexivity.
Qed.

Lemma get_substitution_all_plain matched before after x :
  Forall (fun a => Ascii.eqb a "$" = false) x ->
  get_substitution matched before after x = x.
Proof.
  intros H. rewrite <- (app_nil_r x) at 1.
  rewrite get_substitution_plain by exact H. apply app_nil_r.
Qed.

(** X13. On a template that holds [{{title}}] and, behind it,
    [{{content}}], where no [{{title}}] begins earlier and no
    [{{content}}] begins before the second placeholder, be it in the
    title that is inserted, the page of a post is the template with the
    title in place of [{{title}}] and the article in place of
    [{{content}}], and [..] for every [{{base}}], when neither holds a
    dollar. A dollar is read as in a replacement pattern: [$$] in the
    article comes out as one dollar, and [$&] as the placeholder
    [{{content}}] itself. *)
Theorem post_page_inserts (templateHtml : str)
    (articleHtml : Post -> list Post -> str) (post : Post)
    (related : list Post) (pre mid rest x y : str) :
  templateHtml = pre ++ L "{{title}}" ++ mid ++ L "{{content}}" ++ rest ->
  contains (L "{{title}}") (pre ++ removelast (L "{{title}}")) = false ->
  contains (L "{{content}}")
    (pre ++ show (post_title post) ++ mid ++ removelast (L "{{content}}"))
  = false ->
  Forall (fun a => Ascii.eqb a "$" = false) (show (post_title post)) ->
  Forall (fun a => Ascii.eqb a "$" = false) x ->
  Forall (fun a => Ascii.eqb a "$" = false) y ->
  (articleHtml post related = x ->
   post_page templateHtml articleHtml post related
   = Regex.replace_all base_re (L "..")
       (pre ++ show (post_title post) ++ mid ++ x ++ rest))
  /\ (articleHtml post related = x ++ L "$$" ++ y ->
      post_page templateHtml articleHtml post related
      = Regex.replace_all base_re (L "..")
          (pre ++ show (post_title post) ++ mid ++ x ++ L "$" ++ y ++ rest))
  /\ (articleHtml post related = x ++ L "$&" ++ y ->
      post_page templateHtml articleHtml post related
      = Regex.replace_all base_re (L "..")
          (pre ++ show (post_title post) ++ mid
             ++ x ++ L "{{content}}" ++ y ++ rest)).
Proof.
  intros Ht Htitle Hcontent Dt Dx Dy.
  assert (E : forall article,
             post_page templateHtml (fun _ _ => article) post related
             = Regex.replace_all base_re (L "..")
                 (pre ++ show (post_title post) ++ mid
                    ++ get_substitution (L "{{content}}")
                         (pre ++ show (post_title post) ++ mid) rest article
                    ++ rest)).
  { intros article. unfold post_page. rewrite Ht.
    rewrite replace_first_at by exact Htitle.
    rewrite get_substitution_all_plain by exact Dt.
    replace (pre ++ show (post_title post) ++ mid ++ L "{{content}}" ++ rest)
      with ((pre ++ show (post_title post) ++ mid) ++ L "{{content}}" ++ rest)
      by (now rewrite <- !app_assoc).
    rewrite replace_first_at by (now rewrite <- !app_assoc).
    now rewrite <- !app_assoc. }
  assert (E' : post_page templateHtml articleHtml post related
               = post_page templateHtml
                   (fun _ _ => articleHtml post related) post related)
    by reflexivity.
  rewrite E', E. repeat split; intros ->.
  - now rewrite get_substitution_all_plain by exact Dx.
  - rewrite get_substitution_plain by exact Dx.
    change (L "$$" ++ y) with ("$"%char :: "$"%char :: y).
    cbn [get_substitution Ascii.eqb Bool.eqb].
    rewrite get_substitution_all_plain by exact Dy.
    rewrite <- !app_assoc. reflexivity.
  - rewrite get_substitution_plain by exact Dx.
    change (L "$&" ++ y) with ("$"%char :: "&"%char :: y).
    cbn [get_substitution Ascii.eqb Bool.eqb].
    rewrite get_substitution_all_plain by exact Dy.
    rewrite <- !app_assoc. reflexivity.
Qed.

(** The theorem on a small template, for a post titled [Go] whose
    article is [<p>a</p>]. *)
Lemma post_page_inserts_witness :
  let post := {| post_title := Some (L "Go"); description := None;
                 author := None; slug := L "go"; readingTime := 1;
                 toc := []; htmlContent := []; date := None;
                 tags := TagsArray []; heroImage := None |} in
  post_page Examples.example_template (fun _ _ => L "<p>a</p>") post []
  = L "<title>Go</title><a href='../'><p>a</p></a>".
Proof.
  intros post.
  refine (eq_trans
    (proj1 (@post_page_inserts Examples.example_template
       (fun _ _ => L "<p>a</p>") post []
       (L "<title>") (L "</title><a href='{{base}}/'>") (L "</a>")
       (L "<p>a</p>") [] eq_refl eq_refl eq_refl _ _ _) eq_refl) eq_refl);
    repeat constructor.
Defined.

End PageFacts.

Section BodyFacts.
Import Regex JsString Build.

Lemma first_line_re_unfold :
  exists r, first_line_re = Cat Bol r.
Proof. eexists. reflexivity. Qed.

Lemma exec_from_first_line_later s :
  forall i, exec_from first_line_re (S i) s = None.
Proof.
  destruct first_line_re_unfold as [r Hr]. rewrite Hr.
  induction s as [|a t IH]; intros i; cbn [exec_from]; unfold match_at;
    rewrite m_cat, m_bol; cbn [Nat.eqb]; [reflexivity | apply IH].
Qed.

(** X16. The body of a callout is the content of the blockquote with,
    at most, a leading part taken away: the text behind it is never
    changed. *)
Theorem callout_body_is_suffix (content : str) :
  match alert content with
  | Some a => exists n, restOfContent a = skipn n content
  | None => True
  end.
Proof.
  unfold alert. destruct (exec alert_re content) as [[[b0 e0] c0]|]; [|exact I].
  cbn [restOfContent]. unfold replace, exec.
  destruct content as [|a t]; cbn [exec_from].
  - destruct (match_at first_line_re 0 []) as [[e c]|];
      [exists e; now rewrite skipn_nil | exists 0; reflexivity].
  - destruct (match_at first_line_re 0 (a :: t)) as [[e c]|].
    + exists e. reflexivity.
    + rewrite exec_from_first_line_later. exists 0. reflexivity.
Qed.

End BodyFacts.

